(** * Query analysis pipeline: table capture, complexity scoring, usage roll-up

    A shallow embedding of the decision logic of the three pipeline stages
    ([query_table_capture.py], [query_categorization.py],
    [query_usage_quicklook.py]) and of the level table of the detailed
    report ([query_table_usage.py]), together with the properties stated
    about them.  File input/output, argument handling and process orchestration
    are left out: every stage is modelled as the function it applies to one
    row (or, for the roll-up, to the list of rows). *)

From Stdlib Require Import Strings.String Strings.Ascii.
From Stdlib Require Import DecimalString DecimalNat.
From Stdlib Require Import List NArith ZArith Bool Arith Lia.
From Stdlib Require Import Sorting.Permutation.
Import ListNotations.

(** ** Python strings

    A Python [str] is a sequence of Unicode code points.  Query texts come
    from a UTF-8 file, so nothing restricts them to ASCII; a character is
    therefore a code point, and a string a list of them. *)

Definition char := N.
Definition str := list char.

(** The code points of an ASCII literal of the source. *)
Definition py (s : String.string) : str :=
  map Ascii.N_of_ascii (String.list_ascii_of_string s).
Arguments py s%_string.

Definition str_eqb (a b : str) : bool :=
  if list_eq_dec N.eq_dec a b then true else false.

Definition mem (x : str) (l : list str) : bool := existsb (str_eqb x) l.

Open Scope N_scope.

(** Whitespace as [\s] of [re] and [str.strip] see it on [str] values. *)
Definition is_space (c : char) : bool :=
  ((9 <=? c) && (c <=? 13)) || ((28 <=? c) && (c <=? 32))
  || (c =? 0x85) || (c =? 0xA0) || (c =? 0x1680)
  || ((0x2000 <=? c) && (c <=? 0x200A))
  || (c =? 0x2028) || (c =? 0x2029) || (c =? 0x202F) || (c =? 0x205F)
  || (c =? 0x3000).

(** Case folding of [re.IGNORECASE] on [str] patterns, as far as ASCII
    pattern characters can tell: a text character [x] matches the ASCII
    pattern character [p] exactly when [casefold x = casefold p].  Besides
    the two cases of a letter this lets the dotted capital I (U+0130) and
    the dotless i (U+0131) match [i], the long s (U+017F) match [s] and the
    Kelvin sign (U+212A) match [k]. *)
Definition casefold (c : char) : char :=
  if (65 <=? c) && (c <=? 90) then c + 32
  else if (c =? 0x130) || (c =? 0x131) then 105
  else if c =? 0x17F then 115
  else if c =? 0x212A then 107
  else c.

Definition ci (p x : char) : bool := casefold x =? casefold p.

Definition is_lower (c : char) : bool := (97 <=? c) && (c <=? 122).
Definition is_digit (c : char) : bool := (48 <=? c) && (c <=? 57).

Close Scope N_scope.

(** ** The fragment of [re] the pipeline uses

    Every pattern of the source is built from single characters, character
    classes, concatenation, alternation and greedy [*] / [+] over a
    character class, always under [re.IGNORECASE].  The matcher lists, in
    the order a backtracking engine tries them, the remainders of the text
    after each way the pattern can match at its start; the engine's match
    is the first of the list. *)

Inductive regex : Type :=
| Eps
| Set_ (f : char -> bool)
| Cat (r1 r2 : regex)
| Alt (r1 r2 : regex)
| Star (f : char -> bool)
| Plus (f : char -> bool).

Fixpoint star_rests (f : char -> bool) (s : str) : list str :=
  match s with
  | c :: s' => if f c then star_rests f s' ++ [s] else [s]
  | [] => [[]]
  end.

Fixpoint rests (r : regex) (s : str) : list str :=
  match r with
  | Eps => [s]
  | Set_ f => match s with
              | c :: s' => if f c then [s'] else []
              | [] => []
              end
  | Cat r1 r2 => flat_map (rests r2) (rests r1 s)
  | Alt r1 r2 => rests r1 s ++ rests r2 s
  | Star f => star_rests f s
  | Plus f => match s with
              | c :: s' => if f c then star_rests f s' else []
              | [] => []
              end
  end.

(** [re.match]: the remainder after the engine's match at the start of [s]. *)
Definition match_at (r : regex) (s : str) : option str := hd_error (rests r s).

(** [re.search(...)] used as a truth value. *)
Fixpoint search (r : regex) (s : str) : bool :=
  match match_at r s with
  | Some _ => true
  | None => match s with
            | [] => false
            | _ :: s' => search r s'
            end
  end.

(** [re.findall] for a pattern whose result is one string per match:
    leftmost matches, never overlapping.  [skip] counts the characters of
    the last match still to be passed over. *)
Fixpoint findall_from (r : regex) (s : str) (skip : nat) : list str :=
  match s with
  | [] => match skip, match_at r [] with
          | O, Some _ => [[]]
          | _, _ => []
          end
  | _ :: s' =>
      match skip with
      | S k => findall_from r s' k
      | O => match match_at r s with
             | Some rest =>
                 let n := (length s - length rest)%nat in
                 firstn n s :: findall_from r s' (n - 1)
             | None => findall_from r s' 0
             end
      end
  end.

Definition findall (r : regex) (s : str) : list str := findall_from r s 0.

(** A literal of the pattern: each character matched ignoring case. *)
Fixpoint lit (w : str) : regex :=
  match w with
  | [] => Eps
  | p :: w' => Cat (Set_ (ci p)) (lit w')
  end.

(** ** The [str] and [int] operations the pipeline uses *)

(** [w] is a prefix of [s], character for character ([str.startswith]). *)
Fixpoint prefixb (w s : str) : bool :=
  match w, s with
  | [], _ => true
  | p :: w', c :: s' => (c =? p)%N && prefixb w' s'
  | _ :: _, [] => false
  end.

(** [s.split(sep)] for a one-character separator: never an empty list. *)
Fixpoint split_on (sep : char) (s : str) : list str :=
  match s with
  | [] => [[]]
  | c :: s' =>
      if (c =? sep)%N then [] :: split_on sep s'
      else match split_on sep s' with
           | w :: ws => (c :: w) :: ws
           | [] => [[c]]
           end
  end.

(** [sep.join(parts)] *)
Fixpoint join (sep : str) (parts : list str) : str :=
  match parts with
  | [] => []
  | [w] => w
  | w :: ws => w ++ sep ++ join sep ws
  end.

(** [s.replace(old, new)] for a non-empty [old]: occurrences are taken
    left to right and do not overlap; [skip] counts the characters of the
    occurrence just replaced that are still to be dropped. *)
Fixpoint replace_from (old new s : str) (skip : nat) : str :=
  match s with
  | [] => []
  | c :: s' =>
      match skip with
      | S k => replace_from old new s' k
      | O => if prefixb old s
             then new ++ replace_from old new s' (length old - 1)
             else c :: replace_from old new s' 0
      end
  end.

Definition replace (old new s : str) : str := replace_from old new s 0.

(** [s.strip()] *)
Fixpoint lstrip (s : str) : str :=
  match s with
  | c :: s' => if is_space c then lstrip s' else s
  | [] => []
  end.

Definition strip (s : str) : str := rev (lstrip (rev (lstrip s))).

(** [str(n)] of a non-negative [int]. *)
Definition str_of_nat (n : nat) : str :=
  py (NilEmpty.string_of_uint (Nat.to_uint n)).

(** ** Stage 1: table capture ([query_table_capture.py]) *)

Module Capture.

Inductive env_tag : Type := legacy | gridiron.

Definition table_info : Type := (env_tag * str)%type.

(** [[^.\s]] *)
Definition not_dot_space (c : char) : bool :=
  negb ((c =? 46)%N || is_space c).

(** [[a-zA-Z_]] under IGNORECASE *)
Definition word_start (c : char) : bool :=
  is_lower (casefold c) || (c =? 95)%N.

(** [[a-zA-Z_0-9]] under IGNORECASE *)
Definition word_char (c : char) : bool :=
  is_lower (casefold c) || (c =? 95)%N || is_digit c.

(** [AwsDataCatalog\.[^.\s]+\.[^.\s]+_vw] *)
Definition legacy_pattern : regex :=
  Cat (lit (py "AwsDataCatalog."))
      (Cat (Plus not_dot_space)
           (Cat (lit (py "."))
                (Cat (Plus not_dot_space) (lit (py "_vw"))))).

(** [[a-zA-Z_]+_ptc\.[a-zA-Z_0-9]+] *)
Definition gridiron_pattern : regex :=
  Cat (Plus word_start) (Cat (lit (py "_ptc.")) (Plus word_char)).

(** The dedup loop: [unique_tables] grows at its end, [seen] records the
    raw identifiers already kept. *)
Definition dedup_step (st : list table_info * list str) (x : table_info)
  : list table_info * list str :=
  let '(unique_tables, seen) := st in
  if mem (snd x) seen then st
  else (unique_tables ++ [x], snd x :: seen).

Definition extract_tables (query : str) : list table_info :=
  let legacy_tables := findall legacy_pattern query in
  let gridiron_tables := findall gridiron_pattern query in
  let all_tables :=
    map (pair legacy) legacy_tables ++ map (pair gridiron) gridiron_tables in
  fst (fold_left dedup_step all_tables ([], [])).

Definition is_query_complete (table_info_list : list table_info) : Z :=
  match table_info_list with
  | [] => 0%Z
  | _ :: _ => 1%Z
  end.

Definition get_simplified_table_name (table : str) (environment : env_tag)
  : str :=
  match environment with
  | legacy =>
      let table_name := last (split_on 46%N table) [] in
      let table_name := replace (py "_vw") [] table_name in
      let parts := split_on 95%N table_name in
      if (1 <? length parts)%nat then join (py "_") (removelast parts)
      else table_name
  | gridiron =>
      let table_name := last (split_on 46%N table) [] in
      if prefixb (py "ptc_") table_name then skipn 4 table_name
      else table_name
  end.

(** The value of the [data_environment] column. *)
Inductive data_env : Type :=
| env_legacy | env_gridiron | env_mixed | env_unknown | env_na.

Definition env_name (e : data_env) : str :=
  match e with
  | env_legacy => py "legacy"
  | env_gridiron => py "gridiron"
  | env_mixed => py "mixed"
  | env_unknown => py "unknown"
  | env_na => py "N/A"
  end.

(** [env_counts] after the counting loop, as (legacy, gridiron). *)
Definition count_step (env_counts : nat * nat) (x : table_info) : nat * nat :=
  match fst x with
  | legacy => (S (fst env_counts), snd env_counts)
  | gridiron => (fst env_counts, S (snd env_counts))
  end.

Definition env_counts (table_info_list : list table_info) : nat * nat :=
  fold_left count_step table_info_list (0, 0)%nat.

(** The comparison of the two counts that ends the function. *)
Definition primary_of_counts (n_legacy n_gridiron : nat) : data_env :=
  if (n_gridiron <? n_legacy)%nat then env_legacy
  else if (n_legacy <? n_gridiron)%nat then env_gridiron
  else if (0 <? n_legacy)%nat && (0 <? n_gridiron)%nat then env_mixed
  else env_legacy.

Definition determine_primary_environment
  (table_info_list : list table_info) (completeness : Z) : data_env :=
  if (completeness =? 0)%Z then env_na
  else match table_info_list with
       | [] => env_unknown
       | _ :: _ =>
           let counts := env_counts table_info_list in
           primary_of_counts (fst counts) (snd counts)
       end.

(** One output row of [process_file]; the columns copied unchanged from
    the input ([timestamp_et], [user]) are left out. *)
Record captured_row : Type := {
  club : str;
  query : str;
  table_used : str;
  completeness : Z;
  first_table_used : str;
  second_table_used : str;
  third_table_used : str;
  fourth_table_used : str;
  fifth_table_used : str;
  sixth_table_used : str;
  table_used_num : nat;
  data_environment : data_env
}.

(** [simplified_tables[i] if len(simplified_tables) > i else ''] *)
Definition slot (simplified_tables : list str) (i : nat) : str :=
  nth i simplified_tables [].

(** The body of the row loop of [process_file], for a row whose [Club]
    and [Query] columns hold [club_in] and [query_in]. *)
Definition process_row (club_in query_in : str) : captured_row :=
  let table_info_list := extract_tables query_in in
  let completeness := is_query_complete table_info_list in
  let simplified_tables :=
    map (fun x => get_simplified_table_name (snd x) (fst x)) table_info_list in
  let table_used_num := length simplified_tables in
  let data_environment :=
    determine_primary_environment table_info_list completeness in
  {| club := club_in;
     query := query_in;
     table_used := join (py ",") simplified_tables;
     completeness := completeness;
     first_table_used := slot simplified_tables 0;
     second_table_used := slot simplified_tables 1;
     third_table_used := slot simplified_tables 2;
     fourth_table_used := slot simplified_tables 3;
     fifth_table_used := slot simplified_tables 4;
     sixth_table_used := slot simplified_tables 5;
     table_used_num := table_used_num;
     data_environment := data_environment |}.

End Capture.

(** ** Stage 2: complexity scoring ([query_categorization.py]) *)

Module Scoring.

(** [SELECT \*] *)
Definition select_star : regex := lit (py "SELECT *").

(** [(COUNT|SUM|AVG|MAX|MIN)\s*\(]; [re.findall] returns the text of the
    group for every match, and the source only takes the length. *)
Definition aggregate_call : regex :=
  Cat (Alt (lit (py "COUNT"))
           (Alt (lit (py "SUM"))
                (Alt (lit (py "AVG"))
                     (Alt (lit (py "MAX")) (lit (py "MIN"))))))
      (Cat (Star is_space) (lit (py "("))).

(** [\(SELECT] *)
Definition nested_select : regex := lit (py "(SELECT").

(** [(UNION|INTERSECT|EXCEPT)] *)
Definition set_operation : regex :=
  Alt (lit (py "UNION")) (Alt (lit (py "INTERSECT")) (lit (py "EXCEPT"))).

(** [OVER\s*\(] *)
Definition window_call : regex :=
  Cat (lit (py "OVER")) (Cat (Star is_space) (lit (py "("))).

(** [(PIVOT|UNPIVOT)] *)
Definition pivot : regex := Alt (lit (py "PIVOT")) (lit (py "UNPIVOT")).

(** [len(re.findall(...))] *)
Definition count_matches (r : regex) (s : str) : Z :=
  Z.of_nat (length (findall r s)).

(** [min(aggregations, 1) * 2 + max(aggregations - 1, 0)] *)
Definition aggregation_points (aggregations : Z) : Z :=
  (Z.min aggregations 1 * 2 + Z.max (aggregations - 1) 0)%Z.

Open Scope Z_scope.

Definition score_query (query : str) : Z :=
  let score := 0 in
  let score := if negb (search select_star query) then score + 1 else score in
  let score := if search (lit (py "LIMIT")) query then score + 1 else score in
  let score := if search (lit (py "WHERE")) query then score + 2 else score in
  let score := if search (lit (py "HAVING")) query then score + 2 else score in
  let score :=
    if search (lit (py "ORDER BY")) query then score + 1 else score in
  let joins := count_matches (lit (py "JOIN")) query in
  let score := score + joins * 3 in
  let score :=
    if search (lit (py "GROUP BY")) query then score + 2 else score in
  let aggregations := count_matches aggregate_call query in
  let score := score + aggregation_points aggregations in
  let subqueries := count_matches nested_select query in
  let score := score + subqueries * 3 in
  let score := if search (lit (py "WITH")) query then score + 5 else score in
  let score := if search set_operation query then score + 5 else score in
  let score := if search window_call query then score + 6 else score in
  let score := if search pivot query then score + 6 else score in
  score.

Definition categorize_query (score : Z) : str :=
  if score <=? 2 then py "Basic Exploratory"
  else if score <=? 6 then py "Focused Exploratory"
  else if score <=? 13 then py "Analytical"
  else py "Complex Analytical".

(** [f"<label> ({n})"] for a non-negative [n]. *)
Definition entry (label : str) (n : Z) : str :=
  label ++ py " (" ++ str_of_nat (Z.to_nat n) ++ py ")".

(** [explanations.append(e)] when [b] holds. *)
Definition append_if (b : bool) (e : str) (explanations : list str)
  : list str :=
  if b then explanations ++ [e] else explanations.

Definition explain_score (query : str) : str :=
  let explanations := [] in
  let explanations :=
    append_if (negb (search select_star query))
      (py "SELECT with specific columns (1)") explanations in
  let explanations :=
    append_if (search (lit (py "LIMIT")) query)
      (py "LIMIT clause (1)") explanations in
  let explanations :=
    append_if (search (lit (py "WHERE")) query)
      (py "WHERE clause (2)") explanations in
  let explanations :=
    append_if (search (lit (py "HAVING")) query)
      (py "HAVING clause (2)") explanations in
  let explanations :=
    append_if (search (lit (py "ORDER BY")) query)
      (py "ORDER BY (1)") explanations in
  let joins := count_matches (lit (py "JOIN")) query in
  let explanations :=
    append_if (0 <? joins) (entry (py "JOIns") (joins * 3)) explanations in
  let explanations :=
    append_if (search (lit (py "GROUP BY")) query)
      (py "GROUP BY (2)") explanations in
  let aggregations := count_matches aggregate_call query in
  let explanations :=
    append_if (0 <? aggregations)
      (entry (py "Aggregations") (aggregation_points aggregations))
      explanations in
  let subqueries := count_matches nested_select query in
  let explanations :=
    append_if (0 <? subqueries)
      (entry (py "Subqueries") (subqueries * 3)) explanations in
  let explanations :=
    append_if (search (lit (py "WITH")) query)
      (py "Common Table Expressions (5)") explanations in
  let explanations :=
    append_if (search set_operation query)
      (py "Set operations (5)") explanations in
  let explanations :=
    append_if (search window_call query)
      (py "Window functions (6)") explanations in
  let explanations :=
    append_if (search pivot query) (py "PIVOT/UNPIVOT (6)") explanations in
  join (py ", ") explanations.

Close Scope Z_scope.

(** The [score] column: an [int], or the text ['N/A']. *)
Inductive score_value : Type :=
| score_int (n : Z)
| score_na.

(** The three columns [process_queries] adds to a row. *)
Record scored : Type := {
  score : score_value;
  category : str;
  explanation : str
}.

(** The body of the row loop of [process_queries]; [completeness_in] is
    the [completeness] column of the row as read from the file, [None]
    when the file has no such column ([row.get('completeness', '1')]). *)
Definition process_query_row (query_in : str) (completeness_in : option str)
  : scored :=
  let completeness :=
    match completeness_in with
    | Some v => v
    | None => py "1"
    end in
  if str_eqb completeness (py "1") then
    let score := score_query query_in in
    {| score := score_int score;
       category := categorize_query score;
       explanation := explain_score query_in |}
  else
    {| score := score_na;
       category := py "Invalid/Incomplete";
       explanation := py "Query marked as incomplete" |}.

(** The text the csv writer stores for an [int] column ([str(n)]); stage 1
    only writes [0], [1] or a length there. *)
Definition csv_int (n : Z) : str := str_of_nat (Z.to_nat n).

(** Stage 2 applied to a row written by stage 1. *)
Definition categorize_captured (r : Capture.captured_row) : scored :=
  process_query_row (Capture.query r)
    (Some (csv_int (Capture.completeness r))).

End Scoring.

(** ** Stage 3: usage roll-up ([query_usage_quicklook.py]) *)

Module Usage.

(** A [dict] keeps its keys in the order they were first stored, and
    [defaultdict] / [Counter] store a key the first time it is updated:
    an association list that grows at its end. *)
Definition odict (V : Type) : Type := list (str * V).

Fixpoint update {V : Type} (dflt : V) (k : str) (f : V -> V) (d : odict V)
  : odict V :=
  match d with
  | [] => [(k, f dflt)]
  | (k', v) :: d' =>
      if str_eqb k k' then (k', f v) :: d'
      else (k', v) :: update dflt k f d'
  end.

Fixpoint lookup {V : Type} (k : str) (d : odict V) : option V :=
  match d with
  | [] => None
  | (k', v) :: d' => if str_eqb k k' then Some v else lookup k d'
  end.

(** [collections.Counter] *)
Definition counter : Type := odict nat.

(** [c[k] += 1] *)
Definition incr (k : str) (c : counter) : counter := update 0%nat k S c.

(** [c.most_common(1)]: [max] over the items by count, which keeps the
    first of the items that reach the largest count. *)
Fixpoint max_item (best : str * nat) (items : list (str * nat)) : str * nat :=
  match items with
  | [] => best
  | x :: items' =>
      if (snd best <? snd x)%nat then max_item x items'
      else max_item best items'
  end.

Definition most_common_1 (c : counter) : list (str * nat) :=
  match c with
  | [] => []
  | x :: c' => [max_item x c']
  end.

(** [s.add(x)] on a [set]; only the number of elements is ever read. *)
Definition set_add (x : str) (s : list str) : list str :=
  if mem x s then s else s ++ [x].

(** [sorted(items, key=key, reverse=True)] for a key that is a count:
    largest key first, and items with the same key in the order they had
    (the sort is stable, also when reversed).  An item is put in front of
    the first item, among those that came after it, whose key is not
    larger. *)
Fixpoint insert_reverse {A : Type} (key : A -> nat) (x : A) (l : list A)
  : list A :=
  match l with
  | [] => [x]
  | y :: l' =>
      if (key y <=? key x)%nat then x :: y :: l'
      else y :: insert_reverse key x l'
  end.

Definition sorted_reverse {A : Type} (key : A -> nat) (l : list A) : list A :=
  fold_right (insert_reverse key) [] l.

(** One row of the categorized file, as stage 3 reads it: every column is
    text; [table_columns] holds [first_table_used] .. [sixth_table_used]
    in that order. *)
Record row : Type := {
  club : str;
  data_environment : str;
  score : str;
  table_columns : list str
}.

Section Floats.

(** Scores are accumulated as Python floats.  The roll-up properties below
    do not depend on their arithmetic, which is kept abstract: the type,
    [float(text)] with [None] for a [ValueError], the number [0], the sum
    of a list, the division by a length, and the ["%.2f"] rendering. *)
Variable float : Type.
Variable float_of_str : str -> option float.
Variable float_zero : float.
Variable float_sum : list float -> float.
Variable float_div : float -> nat -> float.
Variable float_fmt2 : float -> str.

Record club_entry : Type := {
  legacy_tables : list str;
  gridiron_tables : list str;
  legacy_table_counts : counter;
  gridiron_table_counts : counter;
  scores : list float
}.

Definition new_club : club_entry :=
  {| legacy_tables := []; gridiron_tables := [];
     legacy_table_counts := []; gridiron_table_counts := [];
     scores := [] |}.

Record table_entry : Type := {
  unique_clubs : list str;
  query_appearances : nat;
  environment : str
}.

Definition new_table : table_entry :=
  {| unique_clubs := []; query_appearances := 0; environment := py "unknown" |}.

Definition state : Type := (odict club_entry * odict table_entry)%type.

Definition add_score (x : float) (e : club_entry) : club_entry :=
  {| legacy_tables := legacy_tables e;
     gridiron_tables := gridiron_tables e;
     legacy_table_counts := legacy_table_counts e;
     gridiron_table_counts := gridiron_table_counts e;
     scores := scores e ++ [x] |}.

Definition use_legacy (table : str) (e : club_entry) : club_entry :=
  {| legacy_tables := set_add table (legacy_tables e);
     gridiron_tables := gridiron_tables e;
     legacy_table_counts := incr table (legacy_table_counts e);
     gridiron_table_counts := gridiron_table_counts e;
     scores := scores e |}.

Definition use_gridiron (table : str) (e : club_entry) : club_entry :=
  {| legacy_tables := legacy_tables e;
     gridiron_tables := set_add table (gridiron_tables e);
     legacy_table_counts := legacy_table_counts e;
     gridiron_table_counts := incr table (gridiron_table_counts e);
     scores := scores e |}.

Definition see_table (club_in data_env : str) (e : table_entry)
  : table_entry :=
  {| unique_clubs := set_add club_in (unique_clubs e);
     query_appearances := S (query_appearances e);
     environment :=
       if str_eqb data_env (py "legacy") || str_eqb data_env (py "gridiron")
       then data_env else environment e |}.

Definition nonempty (s : str) : bool :=
  match s with
  | [] => false
  | _ :: _ => true
  end.

(** The body of [for column in table_columns], for the column whose text
    is [cell]. *)
Definition column_step (club_in data_env : str) (st : state) (cell : str)
  : state :=
  let table := strip cell in
  if nonempty table then
    let table_data := update new_table table (see_table club_in data_env)
                        (snd st) in
    let club_data :=
      if nonempty club_in
         && (str_eqb data_env (py "legacy")
             || str_eqb data_env (py "gridiron"))
      then if str_eqb data_env (py "legacy")
           then update new_club club_in (use_legacy table) (fst st)
           else update new_club club_in (use_gridiron table) (fst st)
      else fst st in
    (club_data, table_data)
  else st.

(** The body of [for row in reader]. *)
Definition row_step (st : state) (r : row) : state :=
  let club_in := strip (club r) in
  let data_env := strip (data_environment r) in
  let numeric_score :=
    if str_eqb (score r) (py "N/A") then float_zero
    else match float_of_str (score r) with
         | Some x => x
         | None => float_zero
         end in
  let club_data :=
    if nonempty club_in
    then update new_club club_in (add_score numeric_score) (fst st)
    else fst st in
  fold_left (column_step club_in data_env) (table_columns r)
    (club_data, snd st).

Definition analyze_usage (rows : list row) : state :=
  fold_left row_step rows ([], []).

(** One line of the club summary. *)
Record club_line : Type := {
  line_club : str;
  unique_legacy_tables : nat;
  unique_gridiron_tables : nat;
  total_query_score : str;
  avg_query_score : str;
  most_used_legacy_table : str;
  most_used_gridiron_table : str
}.

(** [most[0][0] if most else ''] *)
Definition most_used (c : counter) : str :=
  match most_common_1 c with
  | x :: _ => fst x
  | [] => []
  end.

Definition club_summary_line (kv : str * club_entry) : club_line :=
  let data := snd kv in
  let total_score :=
    match scores data with
    | [] => float_zero
    | _ :: _ => float_sum (scores data)
    end in
  let avg_score :=
    match scores data with
    | [] => float_zero
    | _ :: _ => float_div total_score (length (scores data))
    end in
  {| line_club := fst kv;
     unique_legacy_tables := length (legacy_tables data);
     unique_gridiron_tables := length (gridiron_tables data);
     total_query_score := float_fmt2 total_score;
     avg_query_score := float_fmt2 avg_score;
     most_used_legacy_table := most_used (legacy_table_counts data);
     most_used_gridiron_table := most_used (gridiron_table_counts data) |}.

(** The lines [create_club_analysis] writes for the rows of the input. *)
Definition create_club_analysis (rows : list row) : list club_line :=
  map club_summary_line (fst (analyze_usage rows)).

(** One line of the table summary. *)
Record table_line : Type := {
  table_name : str;
  table_data_environment : str;
  unique_clubs_using : nat;
  total_query_appearances : nat
}.

Definition table_summary_line (kv : str * table_entry) : table_line :=
  let data := snd kv in
  {| table_name := fst kv;
     table_data_environment := environment data;
     unique_clubs_using := length (unique_clubs data);
     total_query_appearances := query_appearances data |}.

(** The lines [create_table_analysis] writes for the rows of the input. *)
Definition create_table_analysis (rows : list row) : list table_line :=
  map table_summary_line
      (sorted_reverse (fun x => query_appearances (snd x))
         (snd (analyze_usage rows))).

End Floats.

End Usage.

(** ** The detailed usage report ([query_table_usage.py]) *)

Module TableUsage.

(** [complexity_levels], the [dict] of [create_detailed_analysis]. *)
Definition complexity_levels : list (str * nat) :=
  [(py "Basic Exploratory", 1); (py "Focused Exploratory", 2);
   (py "Analytical", 3); (py "Complex Analytical", 4)].

(** [complexity_levels.get(cat, 0)] *)
Definition complexity_level (cat : str) : nat :=
  match find (fun kv => str_eqb cat (fst kv)) complexity_levels with
  | Some kv => snd kv
  | None => 0
  end.

End TableUsage.

(** ** Definitions used to state the properties *)

(** The query of the end-to-end scenario. *)
Definition scenario_query : str :=
  py "SELECT * FROM fulfillment_ptc.ptc_ticketing_sales WHERE club_id = 5".

(** A query whose legacy table sits in a schema named like a gridiron one. *)
Definition overlap_query : str :=
  py "SELECT a FROM AwsDataCatalog.sales_ptc.tickets_vw".

(** Number of ['.'] in an identifier. *)
Definition dots (s : str) : nat := length (filter (N.eqb 46) s).

(** [w] occurs in [s] as a block of consecutive characters. *)
Definition infix (w s : str) : Prop := exists pre post, s = pre ++ w ++ post.

(** The six named slot columns of a captured row, in order. *)
Definition slots (r : Capture.captured_row) : list str :=
  [Capture.first_table_used r; Capture.second_table_used r;
   Capture.third_table_used r; Capture.fourth_table_used r;
   Capture.fifth_table_used r; Capture.sixth_table_used r].

(** The normalized names of a query's references, none left out. *)
Definition simplified_names (q : str) : list str :=
  map (fun x => Capture.get_simplified_table_name (snd x) (fst x))
      (Capture.extract_tables q).

(** A query naming seven gridiron tables. *)
Definition seven_tables_query : str :=
  py "a_ptc.t1 b_ptc.t2 c_ptc.t3 d_ptc.t4 e_ptc.t5 f_ptc.t6 g_ptc.t7".

(** *** The legacy naming rule, as the specification words it

    Final dot-segment; the suffix [_vw] removed when the segment ends with
    it; then the last underscore-delimited segment dropped when more than
    one segment remains. *)

Definition strip_suffix (suffix s : str) : str :=
  if prefixb (rev suffix) (rev s)
  then firstn (length s - length suffix) s
  else s.

Definition legacy_name_spec (table : str) : str :=
  let segment := last (split_on 46%N table) [] in
  let base := strip_suffix (py "_vw") segment in
  let parts := split_on 95%N base in
  if (1 <? length parts)%nat then join (py "_") (removelast parts) else base.

(** A legacy identifier in which [_vw] also occurs before the suffix. *)
Definition inner_vw_table : str := py "AwsDataCatalog.db.sales_vw_abc_vw".

(** *** Words of a pattern *)

(** The texts a pattern can consume. *)
Inductive lang : regex -> str -> Prop :=
| lang_eps : lang Eps []
| lang_set f c : f c = true -> lang (Set_ f) [c]
| lang_cat r1 r2 w1 w2 :
    lang r1 w1 -> lang r2 w2 -> lang (Cat r1 r2) (w1 ++ w2)
| lang_alt_l r1 r2 w : lang r1 w -> lang (Alt r1 r2) w
| lang_alt_r r1 r2 w : lang r2 w -> lang (Alt r1 r2) w
| lang_star f w : Forall (fun c => f c = true) w -> lang (Star f) w
| lang_plus f c w :
    f c = true -> Forall (fun c => f c = true) w -> lang (Plus f) (c :: w).


(** *** Reading an explanation back

    The sum of the numbers that stand between parentheses in a text:
    [inside] is the value of the digits read since the last ['('], when
    only digits followed it. *)

Fixpoint sum_paren (s : str) (inside : option Z) (total : Z) : Z :=
  match s with
  | [] => total
  | c :: s' =>
      match inside with
      | None =>
          if (c =? 40)%N then sum_paren s' (Some 0%Z) total
          else sum_paren s' None total
      | Some acc =>
          if is_digit c
          then sum_paren s' (Some (10 * acc + Z.of_N (c - 48))%Z) total
          else if (c =? 41)%N then sum_paren s' None (total + acc)%Z
          else if (c =? 40)%N then sum_paren s' (Some 0%Z) total
          else sum_paren s' None total
      end
  end.

Definition contributions_sum (explanation : str) : Z :=
  sum_paren explanation None 0.

(** An entry followed by [rest] adds [n] to the sum. *)
Definition reads_as (e : str) (n : Z) : Prop :=
  forall rest total,
    sum_paren (e ++ rest) None total = sum_paren rest None (total + n).

(** The explanations collected so far, joined, add [n] to the sum. *)
Definition explains (explanations : list str) (n : Z) : Prop :=
  forall rest total,
    sum_paren (join (py ", ") explanations ++ rest) None total
    = sum_paren rest None (total + n).

(** *** The signals of the scorer, as the specification words them

    A signal is recognised at a position of the text, by comparing the
    characters from that position on with a keyword, ignoring case.  A
    presence signal asks for one such position, a counted signal adds up
    all of them. *)

(** The text starts with the keyword [w], ignoring case. *)
Fixpoint starts_ci (w s : str) : bool :=
  match w, s with
  | [], _ => true
  | p :: w', x :: s' => ci p x && starts_ci w' s'
  | _ :: _, [] => false
  end.

(** The number of positions of [s] (its end included) at which [here]
    holds of the rest of the text. *)
Fixpoint occurrences (here : str -> bool) (s : str) : nat :=
  (if here s then 1 else 0)
  + match s with
    | [] => 0
    | _ :: s' => occurrences here s'
    end.

Definition present (here : str -> bool) (s : str) : bool :=
  (0 <? occurrences here s)%nat.

(** The keyword [w], then any whitespace, then an opening parenthesis. *)
Definition call_at (w s : str) : bool :=
  starts_ci w s && starts_ci (py "(") (lstrip (skipn (length w) s)).

(** A call of one of the five aggregate functions. *)
Definition aggregate_at (s : str) : bool :=
  call_at (py "COUNT") s || call_at (py "SUM") s || call_at (py "AVG") s
  || call_at (py "MAX") s || call_at (py "MIN") s.

Definition weight (b : bool) (w : Z) : Z := if b then w else 0%Z.

(** The weight table, signal by signal. *)
Definition score_spec (q : str) : Z :=
  (weight (negb (present (starts_ci (py "SELECT *")) q)) 1
   + weight (present (starts_ci (py "LIMIT")) q) 1
   + weight (present (starts_ci (py "WHERE")) q) 2
   + weight (present (starts_ci (py "HAVING")) q) 2
   + weight (present (starts_ci (py "ORDER BY")) q) 1
   + 3 * Z.of_nat (occurrences (starts_ci (py "JOIN")) q)
   + weight (present (starts_ci (py "GROUP BY")) q) 2
   + match occurrences aggregate_at q with
     | O => 0
     | S extra => 2 + Z.of_nat extra
     end
   + 3 * Z.of_nat (occurrences (starts_ci (py "(SELECT")) q)
   + weight (present (starts_ci (py "WITH")) q) 5
   + weight (present (starts_ci (py "UNION")) q
             || present (starts_ci (py "INTERSECT")) q
             || present (starts_ci (py "EXCEPT")) q) 5
   + weight (present (call_at (py "OVER")) q) 6
   + weight (present (starts_ci (py "PIVOT")) q
             || present (starts_ci (py "UNPIVOT")) q) 6)%Z.

(** The pattern matches at the start of the text. *)
Definition matches (r : regex) (s : str) : bool :=
  match match_at r s with
  | Some _ => true
  | None => false
  end.

(** No match of the pattern is empty, and none starts inside another. *)
Definition no_overlap (r : regex) : Prop :=
  forall s rest,
    match_at r s = Some rest ->
    length rest < length s
    /\ forall k, 0 < k < length s - length rest ->
                 match_at r (skipn k s) = None.

(** The constructs of the weight table that can be added to a text. *)
Definition qualifying_constructs : list str :=
  [py "LIMIT"; py "WHERE"; py "HAVING"; py "ORDER BY"; py "JOIN";
   py "GROUP BY"; py "COUNT("; py "SUM("; py "AVG("; py "MAX("; py "MIN(";
   py "(SELECT"; py "WITH"; py "UNION"; py "INTERSECT"; py "EXCEPT";
   py "OVER ("; py "PIVOT"; py "UNPIVOT"].

(** No ['*'] in the text. *)
Definition star_free (c : str) : bool := forallb (fun x => negb (x =? 42)%N) c.

(** The first character of the keyword does not come back in it, ignoring
    case. *)
Definition head_unique (w : str) : bool :=
  match w with
  | [] => false
  | p :: w' => forallb (fun q => negb (casefold q =? casefold p)%N) w'
  end.

(** A test on the rest of the text that stays true when more text is put
    at the end. *)
Definition survives_append (here : str -> bool) : Prop :=
  forall s c, here s = true -> here (s ++ c) = true.

(** *** The usage counters, as the specification words them

    For a club and an environment, the tables whose counter a row
    increments, in the order of its table columns; a row counts for a club
    that is known (not empty) and for the environment it names. *)

Definition row_increments (r : Usage.row) (club_in env : str) : list str :=
  if Usage.nonempty club_in
     && str_eqb (strip (Usage.club r)) club_in
     && str_eqb (strip (Usage.data_environment r)) env
  then filter Usage.nonempty (map strip (Usage.table_columns r))
  else [].

(** All the increments of the run, in the order they happen. *)
Definition increments (rows : list Usage.row) (club_in env : str)
  : list str :=
  flat_map (fun r => row_increments r club_in env) rows.

(** How many times the counter of [t] is incremented. *)
Definition usage_count (t : str) (evs : list str) : nat :=
  length (filter (str_eqb t) evs).

(** The rank of the first increment of [t]: the number of increments that
    come before it (all of them when [t] is never incremented). *)
Fixpoint first_index (t : str) (evs : list str) : nat :=
  match evs with
  | [] => 0
  | x :: evs' => if str_eqb t x then 0 else S (first_index t evs')
  end.

(** The counter a sequence of increments builds. *)
Definition counter_of (evs : list str) : Usage.counter :=
  fold_left (fun c t => Usage.incr t c) evs [].

(** The tables incremented, each once, by first increment. *)
Definition firsts (evs : list str) : list str :=
  fold_left (fun s t => Usage.set_add t s) evs [].

(** The most-used column of a summary line for an environment. *)
Definition most_used_of (env : str) (line : Usage.club_line) : str :=
  if str_eqb env (py "legacy") then Usage.most_used_legacy_table line
  else Usage.most_used_gridiron_table line.

Section ClubCounters.

Variable float : Type.

(** The counter of a club entry for an environment. *)
Definition table_counts (env : str) (e : Usage.club_entry float)
  : Usage.counter :=
  if str_eqb env (py "legacy") then Usage.legacy_table_counts float e
  else Usage.gridiron_table_counts float e.

(** The counter of a club for an environment in the aggregate, empty when
    the club has no entry yet. *)
Definition counts_at (env : str) (cd : Usage.odict (Usage.club_entry float))
  (club_in : str) : Usage.counter :=
  match Usage.lookup club_in cd with
  | Some e => table_counts env e
  | None => []
  end.

End ClubCounters.

(** Every table of [keys] is first incremented before the tables that
    follow it in [keys]. *)
Fixpoint by_first_increment (evs keys : list str) : Prop :=
  match keys with
  | [] => True
  | k :: ks =>
      Forall (fun t => first_index k evs < first_index t evs) ks
      /\ by_first_increment evs ks
  end.

(** Two rows of one club in which two tables are used twice each;
    [sales] is the first to be counted. *)
Definition tie_rows : list Usage.row :=
  [ {| Usage.club := py "ABC"; Usage.data_environment := py "gridiron";
       Usage.score := py "3";
       Usage.table_columns :=
         [py "sales"; py "tickets"; py ""; py ""; py ""; py ""] |};
    {| Usage.club := py "ABC"; Usage.data_environment := py "gridiron";
       Usage.score := py "5";
       Usage.table_columns :=
         [py "tickets"; py "sales"; py ""; py ""; py ""; py ""] |} ].

(** The club summary of [rows] with scores kept as integers; the
    most-used columns do not depend on the arithmetic of the scores. *)
Definition club_analysis_Z (rows : list Usage.row) : list Usage.club_line :=
  Usage.create_club_analysis Z (fun _ => None) 0%Z
    (fun l => fold_right Z.add 0%Z l) (fun x n => Z.div x (Z.of_nat n))
    (fun x => str_of_nat (Z.to_nat x)) rows.

(** *** Proof steps used more than once *)

(** Unfolds the boolean tests of a hypothesis into arithmetic facts. *)
Ltac bool_facts :=
  repeat match goal with
         | E : (_ || _) = true |- _ => apply orb_true_iff in E; destruct E
         | E : (_ || _) = false |- _ => apply orb_false_iff in E; destruct E
         | E : (_ && _) = true |- _ => apply andb_true_iff in E; destruct E
         | E : (_ && _) = false |- _ => apply andb_false_iff in E; destruct E
         | E : (_ =? _)%N = true |- _ => apply N.eqb_eq in E
         | E : (_ =? _)%N = false |- _ => apply N.eqb_neq in E
         | E : (_ <=? _)%N = true |- _ => apply N.leb_le in E
         | E : (_ <=? _)%N = false |- _ => apply N.leb_gt in E
         end.

(** Writes the keywords of the goal and of the hypotheses character by
    character. *)
Ltac spell_out :=
  repeat match goal with
         | |- context [py ?s] =>
             let v := eval vm_compute in (py s) in change (py s) with v
         | H : context [py ?s] |- _ =>
             let v := eval vm_compute in (py s) in change (py s) with v in H
         end.

(** Decides the comparisons of folded pattern characters. *)
Ltac fold_eqs :=
  repeat match goal with
         | |- context [(casefold ?a =? casefold ?b)%N] =>
             let v := eval vm_compute in (casefold a =? casefold b)%N in
             change (casefold a =? casefold b)%N with v
         end.

(** One case for each index the hypotheses leave possible. *)
Ltac split_index k :=
  first [ lia | destruct k as [|k]; [ | split_index k ] ].


(** *** Further definitions used to state properties *)

(** The two texts differ by the case of their letters only. *)
Fixpoint same_letters (q q' : str) : bool :=
  match q, q' with
  | [], [] => true
  | a :: q1, b :: q1' => (casefold a =? casefold b)%N && same_letters q1 q1'
  | _, _ => false
  end.

(** The keyword forms of the weight table, each with the least it adds
    to the score of a text in which it occurs. *)
Definition keyword_weights : list (str * Z) :=
  [(py "LIMIT", 1); (py "WHERE", 2); (py "HAVING", 2); (py "ORDER BY", 1);
   (py "JOIN", 3); (py "GROUP BY", 2); (py "COUNT(", 2); (py "SUM(", 2);
   (py "AVG(", 2); (py "MAX(", 2); (py "MIN(", 2); (py "(SELECT", 3);
   (py "WITH", 5); (py "UNION", 5); (py "INTERSECT", 5); (py "EXCEPT", 5);
   (py "OVER (", 6); (py "PIVOT", 6); (py "UNPIVOT", 6)]%Z.

(** *** The table summary, as a sequence of cells

    Every non-empty table cell of the input, in reading order, with the
    club and the environment of its row (all three stripped). *)
Definition cell_events (rows : list Usage.row) : list (str * (str * str)) :=
  flat_map
    (fun r =>
       map (fun t => (t, (strip (Usage.club r),
                          strip (Usage.data_environment r))))
           (filter Usage.nonempty (map strip (Usage.table_columns r))))
    rows.

(** The tables named by the cells. *)
Definition cell_tables (rows : list Usage.row) : list str :=
  map fst (cell_events rows).

(** The clubs of the cells that name [t] (the empty club included). *)
Definition cell_clubs (t : str) (evs : list (str * (str * str))) : list str :=
  map (fun ev => fst (snd ev)) (filter (fun ev => str_eqb t (fst ev)) evs).

(** The environments, legacy or gridiron, of the cells that name [t]. *)
Definition cell_environments (t : str) (evs : list (str * (str * str)))
  : list str :=
  filter (fun e => str_eqb e (py "legacy") || str_eqb e (py "gridiron"))
    (map (fun ev => snd (snd ev))
         (filter (fun ev => str_eqb t (fst ev)) evs)).

(** Counts that never go up along the list. *)
Fixpoint descending (l : list nat) : Prop :=
  match l with
  | [] => True
  | n :: l' => Forall (fun m => m <= n) l' /\ descending l'
  end.

(** What one cell does to the table aggregate. *)
Definition cell_step (td : Usage.odict Usage.table_entry)
  (ev : str * (str * str)) : Usage.odict Usage.table_entry :=
  Usage.update Usage.new_table (fst ev)
    (Usage.see_table (fst (snd ev)) (snd (snd ev))) td.

(** The entry of a table in the aggregate, the fresh one when it has
    none. *)
Definition table_entry_at (td : Usage.odict Usage.table_entry) (t : str)
  : Usage.table_entry :=
  match Usage.lookup t td with
  | Some e => e
  | None => Usage.new_table
  end.

(** *** The club summary, row by row *)

(** The clubs of the rows, stripped; rows without a club are left out. *)
Definition row_clubs (rows : list Usage.row) : list str :=
  filter Usage.nonempty (map (fun r => strip (Usage.club r)) rows).


Section ClubScores.

Variable float : Type.
Variable float_of_str : str -> option float.
Variable float_zero : float.

(** [numeric_score], the number a row adds to the scores of its club. *)
Definition numeric_score (r : Usage.row) : float :=
  if str_eqb (Usage.score r) (py "N/A") then float_zero
  else match float_of_str (Usage.score r) with
       | Some x => x
       | None => float_zero
       end.


(** The two table sets of an entry hold the keys of its two counters. *)
Definition sets_follow_counters (e : Usage.club_entry float) : Prop :=
  Usage.legacy_tables float e = map fst (Usage.legacy_table_counts float e)
  /\ Usage.gridiron_tables float e
     = map fst (Usage.gridiron_table_counts float e).

End ClubScores.

(** * Properties *)

(** ** The end-to-end scenario *)

(** C1, as stated, fails: the scenario does not score 3 and is not
    "Focused Exploratory", whatever the rest of the row holds. *)
Lemma scenario_as_stated_fails :
  ~ (Capture.extract_tables scenario_query
       = [(Capture.gridiron, py "fulfillment_ptc.ptc_ticketing_sales")]
     /\ simplified_names scenario_query = [py "ticketing_sales"]
     /\ Capture.completeness (Capture.process_row (py "ABC") scenario_query)
        = 1%Z
     /\ Capture.data_environment
          (Capture.process_row (py "ABC") scenario_query)
        = Capture.env_gridiron
     /\ Scoring.score_query scenario_query = 3%Z
     /\ Scoring.categorize_query (Scoring.score_query scenario_query)
        = py "Focused Exploratory").
Proof.
  intros (_ & _ & _ & _ & Hscore & _).
  vm_compute in Hscore. discriminate Hscore.
Qed.

(** C1, amended: the scenario query yields the single reference
    (gridiron, fulfillment_ptc.ptc_ticketing_sales), normalized to
    ticketing_sales, completeness 1 and environment gridiron; its text
    contains [SELECT *], so only the WHERE signal counts: the score is 2
    and the category "Basic Exploratory". *)
Theorem scenario_end_to_end :
  let r := Capture.process_row (py "ABC") scenario_query in
  let s := Scoring.categorize_captured r in
  Capture.extract_tables scenario_query
    = [(Capture.gridiron, py "fulfillment_ptc.ptc_ticketing_sales")]
  /\ simplified_names scenario_query = [py "ticketing_sales"]
  /\ Capture.first_table_used r = py "ticketing_sales"
  /\ Capture.completeness r = 1%Z
  /\ Capture.data_environment r = Capture.env_gridiron
  /\ search Scoring.select_star scenario_query = true
  /\ Scoring.score_query scenario_query = 2%Z
  /\ Scoring.score s = Scoring.score_int 2
  /\ Scoring.category s = py "Basic Exploratory"
  /\ Scoring.explanation s = py "WHERE clause (2)".
Proof.
  vm_compute. repeat split; reflexivity.
Qed.

(** ** Environment classifier *)

Lemma count_step_total (l : list Capture.table_info) (a b : nat) :
  fst (fold_left Capture.count_step l (a, b))
  + snd (fold_left Capture.count_step l (a, b))
  = a + b + length l.
Proof.
  revert a b. induction l as [|[[|] t] l IH]; intros a b; simpl.
  - lia.
  - unfold Capture.count_step at 2; simpl. rewrite IH. lia.
  - unfold Capture.count_step at 2; simpl. rewrite IH. lia.
Qed.

Lemma env_counts_total (l : list Capture.table_info) :
  fst (Capture.env_counts l) + snd (Capture.env_counts l) = length l.
Proof. unfold Capture.env_counts. rewrite count_step_total. lia. Qed.

(** C4: the classifier follows the decision table row by row.  The last
    row of the table (counts tied at zero) is the final [else] of the
    comparison, which answers legacy; no non-empty list reaches it, since
    the two counts add up to the length of the list. *)
Theorem environment_decision_table
  (l : list Capture.table_info) (completeness : Z) :
  let n_legacy := fst (Capture.env_counts l) in
  let n_gridiron := snd (Capture.env_counts l) in
  let result := Capture.determine_primary_environment l completeness in
  (completeness = 0%Z -> result = Capture.env_na)
  /\ (completeness <> 0%Z -> l = [] -> result = Capture.env_unknown)
  /\ (completeness <> 0%Z -> l <> [] -> n_legacy > n_gridiron ->
      result = Capture.env_legacy)
  /\ (completeness <> 0%Z -> l <> [] -> n_gridiron > n_legacy ->
      result = Capture.env_gridiron)
  /\ (completeness <> 0%Z -> l <> [] -> n_legacy = n_gridiron ->
      n_legacy > 0 -> n_gridiron > 0 -> result = Capture.env_mixed)
  /\ Capture.primary_of_counts 0 0 = Capture.env_legacy
  /\ (l <> [] -> n_legacy + n_gridiron > 0).
Proof.
  cbv zeta. unfold Capture.determine_primary_environment.
  pose proof (env_counts_total l) as Htot.
  destruct (Capture.env_counts l) as [nl ng] eqn:Hc. simpl in *.
  unfold Capture.primary_of_counts.
  repeat split.
  - intros ->. reflexivity.
  - intros Hz ->. apply Z.eqb_neq in Hz. now rewrite Hz.
  - intros Hz Hl Hgt. apply Z.eqb_neq in Hz. rewrite Hz.
    destruct l; [congruence|].
    assert ((ng <? nl) = true) as -> by (apply Nat.ltb_lt; lia). reflexivity.
  - intros Hz Hl Hgt. apply Z.eqb_neq in Hz. rewrite Hz.
    destruct l; [congruence|].
    assert ((ng <? nl) = false) as -> by (apply Nat.ltb_ge; lia).
    assert ((nl <? ng) = true) as -> by (apply Nat.ltb_lt; lia). reflexivity.
  - intros Hz Hl Heq H1 H2. apply Z.eqb_neq in Hz. rewrite Hz.
    destruct l; [congruence|].
    assert ((ng <? nl) = false) as -> by (apply Nat.ltb_ge; lia).
    assert ((nl <? ng) = false) as -> by (apply Nat.ltb_ge; lia).
    assert ((0 <? nl) = true) as -> by (apply Nat.ltb_lt; lia).
    assert ((0 <? ng) = true) as -> by (apply Nat.ltb_lt; lia). reflexivity.
  - intros Hl. destruct l; [congruence|]. simpl in Htot. lia.
Qed.

(** Every reachable row of the table at a concrete input. *)
Lemma environment_decision_table_witness :
  Capture.determine_primary_environment [] 0 = Capture.env_na
  /\ Capture.determine_primary_environment [] 1 = Capture.env_unknown
  /\ Capture.determine_primary_environment
       [(Capture.legacy, py "a"); (Capture.legacy, py "b");
        (Capture.gridiron, py "c")] 1 = Capture.env_legacy
  /\ Capture.determine_primary_environment
       [(Capture.gridiron, py "c")] 1 = Capture.env_gridiron
  /\ Capture.determine_primary_environment
       [(Capture.legacy, py "a"); (Capture.gridiron, py "c")] 1
     = Capture.env_mixed.
Proof.
  split; [|split; [|split; [|split]]].
  - destruct (environment_decision_table [] 0) as (H & _).
    apply H. reflexivity.
  - destruct (environment_decision_table [] 1) as (_ & H & _).
    apply H; [discriminate | reflexivity].
  - destruct (environment_decision_table
                [(Capture.legacy, py "a"); (Capture.legacy, py "b");
                 (Capture.gridiron, py "c")] 1) as (_ & _ & H & _).
    apply H; [discriminate | discriminate | vm_compute; lia].
  - destruct (environment_decision_table [(Capture.gridiron, py "c")] 1)
      as (_ & _ & _ & H & _).
    apply H; [discriminate | discriminate | vm_compute; lia].
  - destruct (environment_decision_table
                [(Capture.legacy, py "a"); (Capture.gridiron, py "c")] 1)
      as (_ & _ & _ & _ & H & _).
    apply H; [discriminate | discriminate | reflexivity
             | vm_compute; lia | vm_compute; lia].
Defined.

(** ** Incomplete queries *)

(** C8: a query with no extractable reference gets completeness 0, the
    environment N/A, the score N/A and the category "Invalid/Incomplete";
    a query with a reference gets completeness 1 and its computed score;
    and stage 2 computes a score only for a row whose completeness column
    reads 1 (or is missing, which stage 1 never produces). *)
Theorem incomplete_query_sentinels (club_in q : str) :
  let r := Capture.process_row club_in q in
  let s := Scoring.categorize_captured r in
  (Capture.extract_tables q = [] ->
     Capture.completeness r = 0%Z
     /\ Capture.data_environment r = Capture.env_na
     /\ Capture.env_name (Capture.data_environment r) = py "N/A"
     /\ Scoring.score s = Scoring.score_na
     /\ Scoring.category s = py "Invalid/Incomplete")
  /\ (Capture.extract_tables q <> [] ->
        Capture.completeness r = 1%Z
        /\ Scoring.score s = Scoring.score_int (Scoring.score_query q))
  /\ (forall c n,
        Scoring.score (Scoring.process_query_row q c) = Scoring.score_int n ->
        c = None \/ c = Some (py "1")).
Proof.
  cbv zeta. unfold Scoring.categorize_captured, Capture.process_row. simpl.
  split; [|split].
  - intros ->. simpl. repeat split; reflexivity.
  - intros Hne. destruct (Capture.extract_tables q); [congruence|].
    simpl. split; reflexivity.
  - intros [c|] n; [|now left].
    unfold Scoring.process_query_row. unfold str_eqb.
    destruct (list_eq_dec N.eq_dec c (py "1")) as [->|Hne]; simpl.
    + now right.
    + discriminate.
Qed.

Lemma incomplete_query_sentinels_witness :
  (Capture.completeness (Capture.process_row (py "ABC") (py "SELECT 1"))
     = 0%Z
   /\ Scoring.score
        (Scoring.categorize_captured
           (Capture.process_row (py "ABC") (py "SELECT 1")))
      = Scoring.score_na)
  /\ Scoring.score
       (Scoring.categorize_captured
          (Capture.process_row (py "ABC") scenario_query))
     = Scoring.score_int 2.
Proof.
  split.
  - destruct (incomplete_query_sentinels (py "ABC") (py "SELECT 1"))
      as (H & _ & _).
    destruct (H eq_refl) as (H1 & _ & _ & H2 & _). split; assumption.
  - destruct (incomplete_query_sentinels (py "ABC") scenario_query)
      as (_ & H & _).
    assert (Hne : Capture.extract_tables scenario_query <> [])
      by (vm_compute; discriminate).
    destruct (H Hne) as (_ & H2). rewrite H2. vm_compute. reflexivity.
Defined.

(** ** The [table_used] column *)

Lemma infix_join (sep : str) (parts : list str) (w : str) :
  In w parts -> infix w (join sep parts).
Proof.
  induction parts as [|p parts IH]; intros Hin; [destruct Hin|].
  destruct parts as [|p' parts].
  - destruct Hin as [<-|[]]. exists [], []. simpl. now rewrite app_nil_r.
  - destruct Hin as [<-|Hin].
    + exists [], (sep ++ join sep (p' :: parts)). reflexivity.
    + destruct (IH Hin) as (pre & post & E).
      exists (p ++ sep ++ pre), post.
      change (join sep (p :: p' :: parts))
        with (p ++ sep ++ join sep (p' :: parts)).
      rewrite E. now rewrite <- !app_assoc.
Qed.

Lemma nth_map_seq (names : list str) (i n : nat) :
  i < n -> nth i (map (fun j => nth j names []) (seq 0 n)) [] = nth i names [].
Proof.
  intros Hi.
  rewrite (nth_indep _ [] (nth 0 names [])) by (now rewrite length_map, length_seq).
  rewrite (map_nth (fun j => nth j names [])). now rewrite seq_nth.
Qed.

(** C10: [table_used] is the comma-join of all the normalized names of
    the query's deduplicated references, in extraction order, and
    [table_used_num] is their full number; only the six slot columns stop
    at the sixth name. *)
Theorem table_used_not_truncated (club_in q : str) :
  let r := Capture.process_row club_in q in
  let names := simplified_names q in
  Capture.table_used r = join (py ",") names
  /\ Capture.table_used_num r = length (Capture.extract_tables q)
  /\ length names = length (Capture.extract_tables q)
  /\ (forall w, In w names -> infix w (Capture.table_used r))
  /\ slots r = map (fun i => nth i names []) (seq 0 6)
  /\ (forall i, i < 6 -> nth i (slots r) [] = nth i names []).
Proof.
  cbv zeta. unfold simplified_names, Capture.process_row, slots. simpl.
  repeat split.
  - apply length_map.
  - apply length_map.
  - intros w Hin. now apply infix_join.
  - intros i Hi. unfold Capture.slot.
    do 6 (destruct i as [|i]; [reflexivity|]). lia.
Qed.

(** Seven references: all seven names in [table_used], the count 7, and
    the first six names in the slots. *)
Lemma table_used_not_truncated_witness :
  let r := Capture.process_row (py "ABC") seven_tables_query in
  infix (py "t7") (Capture.table_used r)
  /\ Capture.table_used r = py "t1,t2,t3,t4,t5,t6,t7"
  /\ Capture.table_used_num r = 7
  /\ nth 5 (slots r) [] = py "t6"
  /\ slots r = [py "t1"; py "t2"; py "t3"; py "t4"; py "t5"; py "t6"].
Proof.
  cbv zeta.
  destruct (table_used_not_truncated (py "ABC") seven_tables_query)
    as (Hjoin & Hnum & _ & Hin & Hslots & Hnth).
  split; [|split; [|split; [|split]]].
  - apply Hin. vm_compute. do 6 right. now left.
  - rewrite Hjoin. vm_compute. reflexivity.
  - rewrite Hnum. vm_compute. reflexivity.
  - rewrite Hnth by lia. vm_compute. reflexivity.
  - rewrite Hslots. vm_compute. reflexivity.
Defined.

(** ** Name normalization *)

(** C5 at a legacy identifier in which [_vw] occurs twice: the extractor
    returns the identifier, the source removes both occurrences and then
    the last segment, while the rule as worded strips the suffix only. *)
Theorem legacy_name_removes_every_vw :
  Capture.extract_tables (py "SELECT * FROM AwsDataCatalog.db.sales_vw_abc_vw")
    = [(Capture.legacy, inner_vw_table)]
  /\ Capture.get_simplified_table_name inner_vw_table Capture.legacy
     = py "sales"
  /\ legacy_name_spec inner_vw_table = py "sales_vw"
  /\ Capture.get_simplified_table_name inner_vw_table Capture.legacy
     <> legacy_name_spec inner_vw_table.
Proof.
  vm_compute. repeat split; try reflexivity. discriminate.
Qed.

(** ** What a match of a pattern looks like *)

Lemma star_rests_sound (f : char -> bool) (s rest : str) :
  In rest (star_rests f s) ->
  exists w, s = w ++ rest /\ Forall (fun c => f c = true) w.
Proof.
  revert rest. induction s as [|c s IH]; intros rest Hin; simpl in Hin.
  - destruct Hin as [<-|[]]. exists []. split; [reflexivity|constructor].
  - destruct (f c) eqn:Hf.
    + apply in_app_or in Hin. destruct Hin as [Hin|[<-|[]]].
      * destruct (IH _ Hin) as (w & -> & Hw).
        exists (c :: w). split; [reflexivity|now constructor].
      * exists []. split; [reflexivity|constructor].
    + destruct Hin as [<-|[]]. exists []. split; [reflexivity|constructor].
Qed.

(** Every remainder the matcher lists is what is left of the text after
    a word of the pattern. *)
Lemma rests_sound (r : regex) :
  forall s rest, In rest (rests r s) -> exists w, s = w ++ rest /\ lang r w.
Proof.
  induction r as [|f|r1 IH1 r2 IH2|r1 IH1 r2 IH2|f|f];
    intros s rest Hin; simpl in Hin.
  - destruct Hin as [<-|[]]. exists []. split; [reflexivity|constructor].
  - destruct s as [|c s]; [destruct Hin|].
    destruct (f c) eqn:Hf; [|destruct Hin].
    destruct Hin as [<-|[]]. exists [c]. split; [reflexivity|now constructor].
  - apply in_flat_map in Hin. destruct Hin as (mid & Hmid & Hin).
    destruct (IH1 _ _ Hmid) as (w1 & -> & H1).
    destruct (IH2 _ _ Hin) as (w2 & -> & H2).
    exists (w1 ++ w2). split; [now rewrite app_assoc|now constructor].
  - apply in_app_or in Hin. destruct Hin as [Hin|Hin].
    + destruct (IH1 _ _ Hin) as (w & -> & H). exists w.
      split; [reflexivity|now apply lang_alt_l].
    + destruct (IH2 _ _ Hin) as (w & -> & H). exists w.
      split; [reflexivity|now apply lang_alt_r].
  - destruct (star_rests_sound _ _ _ Hin) as (w & -> & Hw).
    exists w. split; [reflexivity|now constructor].
  - destruct s as [|c s]; [destruct Hin|].
    destruct (f c) eqn:Hf; [|destruct Hin].
    destruct (star_rests_sound _ _ _ Hin) as (w & -> & Hw).
    exists (c :: w). split; [reflexivity|now constructor].
Qed.

Lemma match_at_sound (r : regex) (s rest : str) :
  match_at r s = Some rest ->
  exists w, s = w ++ rest /\ lang r w
            /\ firstn (length s - length rest) s = w.
Proof.
  unfold match_at. intros H.
  destruct (rests r s) as [|x l] eqn:E; [discriminate|].
  injection H as ->.
  destruct (rests_sound r s rest) as (w & -> & Hw); [rewrite E; now left|].
  exists w. repeat split; [assumption|].
  rewrite length_app.
  replace (length w + length rest - length rest) with (length w) by lia.
  rewrite firstn_app, firstn_all.
  replace (length w - length w) with 0 by lia. simpl. apply app_nil_r.
Qed.

Lemma findall_from_cons (r : regex) (c : char) (s : str) (skip : nat) :
  findall_from r (c :: s) skip
  = match skip with
    | S k => findall_from r s k
    | O => match match_at r (c :: s) with
           | Some rest =>
               firstn (length (c :: s) - length rest) (c :: s)
               :: findall_from r s (length (c :: s) - length rest - 1)
           | None => findall_from r s 0
           end
    end.
Proof. reflexivity. Qed.

(** Every string [re.findall] returns is a word of the pattern. *)
Lemma findall_from_sound (r : regex) (s : str) :
  forall skip w, In w (findall_from r s skip) -> lang r w.
Proof.
  induction s as [|c s IH]; intros skip w Hin.
  - simpl in Hin. destruct skip; [|destruct Hin].
    destruct (match_at r []) as [rest|] eqn:E; [|destruct Hin].
    destruct Hin as [<-|[]].
    destruct (match_at_sound _ _ _ E) as (w & Hw & Hl & _).
    symmetry in Hw. apply app_eq_nil in Hw. destruct Hw as [-> _].
    assumption.
  - rewrite findall_from_cons in Hin.
    destruct skip as [|k]; [|now apply (IH k)].
    destruct (match_at r (c :: s)) as [rest|] eqn:E; [|now apply (IH 0)].
    destruct Hin as [<-|Hin]; [|now apply (IH _ _ Hin)].
    destruct (match_at_sound _ _ _ E) as (w & _ & Hl & Hw).
    rewrite Hw. assumption.
Qed.

(** A word of a literal has the literal's length and matches it character
    by character, ignoring case. *)
Lemma lang_lit (p w : str) :
  lang (lit p) w -> Forall2 (fun a x => ci a x = true) p w.
Proof.
  revert w. induction p as [|a p IH]; intros w H; simpl in H.
  - inversion H. constructor.
  - inversion H as [| |r1 r2 w1 w2 H1 H2| | | |]; subst.
    inversion H1; subst. simpl. constructor; [assumption|now apply IH].
Qed.

(** Folding never turns a character into, or away from, a dot. *)
Lemma ci_dot (a x : char) : ci a x = true -> (x =? 46)%N = (a =? 46)%N.
Proof.
  unfold ci, casefold. intros H. apply N.eqb_eq in H.
  repeat match type of H with
         | context [if ?b then _ else _] => destruct b eqn:?
         end;
    repeat match goal with
           | E : (_ || _) = true |- _ => apply orb_true_iff in E; destruct E
           | E : (_ || _) = false |- _ =>
               apply orb_false_iff in E; destruct E
           | E : (_ && _) = true |- _ => apply andb_true_iff in E; destruct E
           | E : (_ && _) = false |- _ => apply andb_false_iff in E
           | E : (_ =? _)%N = true |- _ => apply N.eqb_eq in E
           | E : (_ =? _)%N = false |- _ => apply N.eqb_neq in E
           | E : (_ <=? _)%N = true |- _ => apply N.leb_le in E
           | E : (_ <=? _)%N = false |- _ => apply N.leb_gt in E
           end;
    destruct (N.eqb_spec x 46), (N.eqb_spec a 46); try reflexivity; lia.
Qed.

Lemma dots_app (u v : str) : dots (u ++ v) = dots u + dots v.
Proof. unfold dots. now rewrite filter_app, length_app. Qed.

Lemma dots_lit (p w : str) : lang (lit p) w -> dots w = dots p.
Proof.
  intros H. apply lang_lit in H. unfold dots.
  induction H as [|a x p w Hax _ IH]; [reflexivity|].
  cbn [filter]. rewrite (N.eqb_sym 46 x), (ci_dot _ _ Hax), (N.eqb_sym a 46).
  destruct (46 =? a)%N; cbn [length]; now rewrite IH.
Qed.

Lemma dots_none (f : char -> bool) (w : str) :
  f 46%N = false -> Forall (fun c => f c = true) w -> dots w = 0.
Proof.
  intros Hf H. unfold dots. induction H as [|c w Hc _ IH]; [reflexivity|].
  cbn [filter]. destruct (N.eqb_spec 46 c) as [<-|_]; [congruence|assumption].
Qed.

Lemma dots_plus (f : char -> bool) (w : str) :
  f 46%N = false -> lang (Plus f) w -> dots w = 0.
Proof.
  intros Hf H. inversion H; subst.
  apply (dots_none f); [assumption|now constructor].
Qed.

Lemma legacy_match_dots (w : str) :
  lang Capture.legacy_pattern w -> dots w = 2.
Proof.
  unfold Capture.legacy_pattern. intros H.
  inversion H as [| |? ? w1 u1 H1 H1'| | | |]; subst; clear H.
  inversion H1' as [| |? ? w2 u2 H2 H2'| | | |]; subst; clear H1'.
  inversion H2' as [| |? ? w3 u3 H3 H3'| | | |]; subst; clear H2'.
  inversion H3' as [| |? ? w4 w5 H4 H5| | | |]; subst; clear H3'.
  rewrite !dots_app.
  rewrite (dots_lit (py "AwsDataCatalog.") _ H1).
  rewrite (dots_lit (py ".") _ H3), (dots_lit (py "_vw") _ H5).
  rewrite (dots_plus _ _ eq_refl H2), (dots_plus _ _ eq_refl H4).
  reflexivity.
Qed.

Lemma gridiron_match_dots (w : str) :
  lang Capture.gridiron_pattern w -> dots w = 1.
Proof.
  unfold Capture.gridiron_pattern. intros H.
  inversion H as [| |? ? w1 u1 H1 H1'| | | |]; subst; clear H.
  inversion H1' as [| |? ? w2 w3 H2 H3| | | |]; subst; clear H1'.
  rewrite !dots_app.
  rewrite (dots_lit (py "_ptc.") _ H2).
  rewrite (dots_plus _ _ eq_refl H1), (dots_plus _ _ eq_refl H3).
  reflexivity.
Qed.

(** ** The dedup loop *)

Lemma str_eqb_eq (a b : str) : str_eqb a b = true <-> a = b.
Proof.
  unfold str_eqb. destruct (list_eq_dec N.eq_dec a b); split;
    congruence.
Qed.

Lemma str_eqb_refl (a : str) : str_eqb a a = true.
Proof. now apply str_eqb_eq. Qed.

Lemma str_eqb_neq (a b : str) : str_eqb a b = false <-> a <> b.
Proof.
  unfold str_eqb. destruct (list_eq_dec N.eq_dec a b); split;
    congruence.
Qed.

Lemma mem_In (x : str) (l : list str) : mem x l = true <-> In x l.
Proof.
  unfold mem. rewrite existsb_exists. split.
  - intros (y & Hy & E). apply str_eqb_eq in E. now subst.
  - intros H. exists x. split; [assumption|apply str_eqb_refl].
Qed.

Lemma NoDup_snoc (l : list str) (x : str) :
  NoDup l -> ~ In x l -> NoDup (l ++ [x]).
Proof.
  induction 1 as [|y l Hy Hnd IH]; intros Hx; simpl.
  - constructor; [intros []|constructor].
  - constructor.
    + rewrite in_app_iff. simpl. intros [H|[H|[]]]; [tauto|].
      apply Hx. now left.
    + apply IH. intros H. apply Hx. now right.
Qed.

(** The loop keeps [seen] equal to the identifiers kept so far, keeps
    them pairwise distinct, and only ever keeps elements of its input. *)
Lemma dedup_invariant (l : list Capture.table_info) :
  forall kept seen,
    (forall t, In t seen <-> In t (map snd kept)) ->
    NoDup (map snd kept) ->
    let out := fst (fold_left Capture.dedup_step l (kept, seen)) in
    NoDup (map snd out)
    /\ (forall x, In x out -> In x kept \/ In x l)
    /\ (forall x, In x kept -> In x out)
    /\ (forall x, In x l -> In (snd x) (map snd out)).
Proof.
  induction l as [|x l IH]; intros kept seen Hseen Hnd; simpl.
  - repeat split; auto. intros x [].
  - destruct (mem (snd x) seen) eqn:Hm.
    + destruct (IH kept seen Hseen Hnd) as (A & B & C & D).
      repeat split; auto.
      * intros y Hy. destruct (B y Hy); auto.
      * intros y [<-|Hy]; [|now apply D].
        apply mem_In in Hm. apply Hseen in Hm.
        apply in_map_iff in Hm. destruct Hm as (z & Ez & Hz).
        rewrite <- Ez. apply in_map. now apply C.
    + assert (Hnot : ~ In (snd x) (map snd kept)).
      { intros Hin. apply Hseen in Hin. apply mem_In in Hin. congruence. }
      destruct (IH (kept ++ [x]) (snd x :: seen)) as (A & B & C & D).
      * intros t. rewrite map_app, in_app_iff. simpl.
        rewrite <- Hseen. tauto.
      * rewrite map_app. simpl. now apply NoDup_snoc.
      * repeat split; auto.
        -- intros y Hy. destruct (B y Hy) as [Hk|Hl]; auto.
           apply in_app_or in Hk. destruct Hk as [Hk|[<-|[]]]; auto.
        -- intros y Hy. apply C. apply in_or_app. now left.
        -- intros y [<-|Hy]; [|now apply D].
           apply in_map. apply C. apply in_or_app. right. now left.
Qed.

Lemma extract_tables_spec (q : str) :
  NoDup (map snd (Capture.extract_tables q))
  /\ (forall t, In (Capture.legacy, t) (Capture.extract_tables q) ->
                In t (findall Capture.legacy_pattern q))
  /\ (forall t, In (Capture.gridiron, t) (Capture.extract_tables q) ->
                In t (findall Capture.gridiron_pattern q)).
Proof.
  unfold Capture.extract_tables. cbv zeta.
  set (all := map (pair Capture.legacy) (findall Capture.legacy_pattern q)
              ++ map (pair Capture.gridiron)
                   (findall Capture.gridiron_pattern q)).
  destruct (dedup_invariant all [] [] (fun t => conj (fun H => H) (fun H => H))
              (NoDup_nil _)) as (A & B & _ & _).
  split; [exact A|]. split; intros t Hin.
  - destruct (B _ Hin) as [[]|Hall]. unfold all in Hall.
    apply in_app_or in Hall. destruct Hall as [H|H];
      apply in_map_iff in H; destruct H as (u & E & Hu);
      inversion E; now subst.
  - destruct (B _ Hin) as [[]|Hall]. unfold all in Hall.
    apply in_app_or in Hall. destruct Hall as [H|H];
      apply in_map_iff in H; destruct H as (u & E & Hu);
      inversion E; now subst.
Qed.

(** ** Legacy and gridiron references of one query *)

(** C2, as stated, fails: for [overlap_query] the gridiron reference is a
    part of the text of the legacy reference. *)
Lemma gridiron_inside_legacy_match :
  ~ (forall l g,
       In (Capture.legacy, l) (Capture.extract_tables overlap_query) ->
       In (Capture.gridiron, g) (Capture.extract_tables overlap_query) ->
       ~ infix g l).
Proof.
  intros H.
  apply (H (py "AwsDataCatalog.sales_ptc.tickets_vw")
           (py "sales_ptc.tickets_vw")).
  - vm_compute. now left.
  - vm_compute. right. now left.
  - exists (py "AwsDataCatalog."), []. reflexivity.
Qed.

(** C2, amended: the two pattern families are searched independently and
    no raw identifier is reported under both tags: a legacy reference
    holds exactly two dots, a gridiron reference exactly one, and the raw
    identifiers of the list are pairwise distinct. *)
Theorem references_never_shared (q l g : str) :
  In (Capture.legacy, l) (Capture.extract_tables q) ->
  In (Capture.gridiron, g) (Capture.extract_tables q) ->
  dots l = 2 /\ dots g = 1 /\ l <> g
  /\ NoDup (map snd (Capture.extract_tables q)).
Proof.
  intros Hl Hg.
  destruct (extract_tables_spec q) as (Hnd & HL & HG).
  assert (Dl : dots l = 2).
  { apply legacy_match_dots. eapply findall_from_sound. apply HL, Hl. }
  assert (Dg : dots g = 1).
  { apply gridiron_match_dots. eapply findall_from_sound. apply HG, Hg. }
  repeat split; try assumption.
  intros ->. congruence.
Qed.

Lemma references_never_shared_witness :
  dots (py "AwsDataCatalog.sales_ptc.tickets_vw") = 2
  /\ dots (py "sales_ptc.tickets_vw") = 1
  /\ py "AwsDataCatalog.sales_ptc.tickets_vw" <> py "sales_ptc.tickets_vw"
  /\ NoDup (map snd (Capture.extract_tables overlap_query)).
Proof.
  apply (references_never_shared overlap_query).
  - vm_compute. now left.
  - vm_compute. right. now left.
Defined.

(** ** Reading the explanation back *)

Lemma sum_paren_label (label rest : str) (total : Z) :
  forallb (fun c => negb (c =? 40)%N) label = true ->
  sum_paren (label ++ rest) None total = sum_paren rest None total.
Proof.
  induction label as [|c label IH]; intros H; [reflexivity|].
  simpl in H. apply andb_true_iff in H. destruct H as [Hc Hl].
  apply negb_true_iff in Hc. simpl. rewrite Hc. now apply IH.
Qed.

(** The digits of a number, read after an opening parenthesis, rebuild
    the number on top of what was read before them. *)
Lemma sum_paren_digits (d : Decimal.uint) (acc : nat) (rest : str)
  (total : Z) :
  sum_paren (py (NilEmpty.string_of_uint d) ++ rest)
    (Some (Z.of_nat acc)) total
  = sum_paren rest (Some (Z.of_nat (Nat.of_uint_acc d acc))) total.
Proof.
  revert acc.
  induction d as [|d IH|d IH|d IH|d IH|d IH|d IH|d IH|d IH|d IH|d IH];
    intros acc; [reflexivity|..];
    cbn [NilEmpty.string_of_uint py list_ascii_of_string map app
         Nat.of_uint_acc];
    match goal with
    | |- sum_paren (N_of_ascii ?a :: _) _ _ = _ =>
        let v := eval vm_compute in (N_of_ascii a) in
        change (N_of_ascii a) with v
    end;
    cbn [sum_paren]; cbv [is_digit]; cbn [N.leb N.compare Pos.compare
      Pos.compare_cont andb N.sub Pos.sub_mask Pos.succ_double_mask
      Pos.double_mask Pos.double_pred_mask Pos.pred_double Z.of_N];
    rewrite <- IH; rewrite Nat.tail_mul_spec;
    fold (py (NilEmpty.string_of_uint d));
    f_equal; f_equal; lia.
Qed.

Lemma sum_paren_number (n : nat) (rest : str) (total : Z) :
  sum_paren (str_of_nat n ++ py ")" ++ rest) (Some 0%Z) total
  = sum_paren rest None (total + Z.of_nat n).
Proof.
  unfold str_of_nat. rewrite (sum_paren_digits (Nat.to_uint n) 0).
  change (Nat.of_uint_acc (Nat.to_uint n) 0)
    with (Nat.of_uint (Nat.to_uint n)).
  rewrite DecimalNat.Unsigned.of_to. reflexivity.
Qed.

Lemma reads_as_entry (label : str) (n : Z) :
  forallb (fun c => negb (c =? 40)%N) label = true ->
  (0 <= n)%Z ->
  reads_as (Scoring.entry label n) n.
Proof.
  intros Hl Hn rest total. unfold Scoring.entry.
  rewrite <- !app_assoc. rewrite sum_paren_label by assumption.
  change (py " (" ++ str_of_nat (Z.to_nat n) ++ py ")" ++ rest)
    with (32%N :: 40%N :: (str_of_nat (Z.to_nat n) ++ py ")" ++ rest)).
  cbn [sum_paren N.eqb Pos.eqb].
  rewrite sum_paren_number. now rewrite Z2Nat.id.
Qed.

Lemma explains_nil : explains [] 0.
Proof. intros rest total. simpl. now rewrite Z.add_0_r. Qed.

Lemma join_snoc (sep : str) (l : list str) (e : str) :
  l <> [] -> join sep (l ++ [e]) = join sep l ++ sep ++ e.
Proof.
  induction l as [|x l IH]; intros H; [congruence|].
  destruct l as [|y l]; [reflexivity|].
  change (join sep ((x :: y :: l) ++ [e]))
    with (x ++ sep ++ join sep ((y :: l) ++ [e])).
  rewrite IH by discriminate.
  change (join sep (x :: y :: l)) with (x ++ sep ++ join sep (y :: l)).
  now rewrite <- !app_assoc.
Qed.

Lemma explains_append (b : bool) (e : str) (m : Z)
  (explanations : list str) (n : Z) :
  explains explanations n ->
  reads_as e m ->
  explains (Scoring.append_if b e explanations)
           (n + if b then m else 0).
Proof.
  intros Hex He. destruct b; simpl; [|now rewrite Z.add_0_r].
  intros rest total. destruct explanations as [|x l].
  - simpl. rewrite He. specialize (Hex [] total). simpl in Hex.
    f_equal. lia.
  - rewrite join_snoc by discriminate. rewrite <- !app_assoc.
    rewrite Hex. change (py ", " ++ e ++ rest)
      with (44%N :: 32%N :: (e ++ rest)).
    cbn [sum_paren N.eqb Pos.eqb]. rewrite He. f_equal. lia.
Qed.

(** An entry appended when its count is positive adds its contribution,
    which is zero when the count is. *)
Lemma explains_counted (label : str) (count m : Z)
  (explanations : list str) (n : Z) :
  forallb (fun c => negb (c =? 40)%N) label = true ->
  (0 <= count)%Z -> (0 <= m)%Z -> (count = 0 -> m = 0)%Z ->
  explains explanations n ->
  explains (Scoring.append_if (0 <? count)%Z (Scoring.entry label m)
              explanations)
           (n + m).
Proof.
  intros Hl Hc Hm Hz Hex.
  pose proof (explains_append (0 <? count)%Z (Scoring.entry label m) m
                explanations n Hex (reads_as_entry label m Hl Hm)) as H.
  destruct (0 <? count)%Z eqn:E; [exact H|].
  apply Z.ltb_ge in E. assert (count = 0)%Z by lia.
  rewrite (Hz H0). rewrite (Hz H0) in H. exact H.
Qed.

Lemma count_matches_nonneg (r : regex) (s : str) :
  (0 <= Scoring.count_matches r s)%Z.
Proof. unfold Scoring.count_matches. lia. Qed.

Lemma aggregation_points_nonneg (a : Z) :
  (0 <= a -> 0 <= Scoring.aggregation_points a)%Z.
Proof. unfold Scoring.aggregation_points. lia. Qed.

(** C6: the numbers between parentheses in the explanation add up to the
    score, for every query text. *)
Theorem explanation_reconstructs_score (query : str) :
  contributions_sum (Scoring.explain_score query)
  = Scoring.score_query query.
Proof.
  unfold contributions_sum, Scoring.explain_score, Scoring.score_query.
  cbv zeta.
  set (joins := Scoring.count_matches (lit (py "JOIN")) query).
  set (aggs := Scoring.count_matches Scoring.aggregate_call query).
  set (subs := Scoring.count_matches Scoring.nested_select query).
  assert (Hj : (0 <= joins)%Z) by apply count_matches_nonneg.
  assert (Ha : (0 <= aggs)%Z) by apply count_matches_nonneg.
  assert (Hs : (0 <= subs)%Z) by apply count_matches_nonneg.
  match goal with
  | |- sum_paren (join _ ?l) None 0 = ?score =>
      assert (H : explains l score); [|specialize (H [] 0%Z);
        rewrite app_nil_r in H; rewrite H; reflexivity]
  end.
  repeat match goal with
         | |- explains (Scoring.append_if (0 <? _)%Z (Scoring.entry _ _) _) _ =>
             apply explains_counted;
             [ reflexivity | assumption
             | first [apply aggregation_points_nonneg; assumption | lia]
             | first [intros ->; reflexivity | lia] | ]
         | |- explains (Scoring.append_if ?b ?e ?l)
                (if ?b then (?x + ?m)%Z else ?x) =>
             replace (if b then (x + m)%Z else x)
               with (x + if b then m else 0)%Z
               by (destruct b; lia);
             apply explains_append; [|intros rest total; reflexivity]
         end.
  apply explains_nil.
Qed.

(** ** The patterns of the scorer, position by position *)

Lemma rests_lit (w s : str) :
  rests (lit w) s = if starts_ci w s then [skipn (length w) s] else [].
Proof.
  revert s. induction w as [|p w IH]; intros s; [reflexivity|].
  destruct s as [|x s]; [reflexivity|].
  cbn [lit rests starts_ci length skipn].
  destruct (ci p x); cbn [flat_map andb]; [|reflexivity].
  rewrite app_nil_r. apply IH.
Qed.

Lemma matches_lit (w s : str) : matches (lit w) s = starts_ci w s.
Proof.
  unfold matches, match_at. rewrite rests_lit.
  now destruct (starts_ci w s).
Qed.

Lemma matches_alt (r1 r2 : regex) (s : str) :
  matches (Alt r1 r2) s = matches r1 s || matches r2 s.
Proof.
  unfold matches, match_at. cbn [rests].
  destruct (rests r1 s); [|reflexivity]. reflexivity.
Qed.

(** [re.search] finds a match exactly when some position has one. *)
Lemma search_present (r : regex) (s : str) :
  search r s = present (matches r) s.
Proof.
  unfold present, matches.
  induction s as [|c s IH]; cbn [search occurrences].
  - now destruct (match_at r []).
  - destruct (match_at r (c :: s)); [reflexivity|].
    rewrite IH. reflexivity.
Qed.

Lemma occurrences_ext (f g : str -> bool) (s : str) :
  (forall t, f t = g t) -> occurrences f s = occurrences g s.
Proof.
  intros H. induction s as [|c s IH]; cbn [occurrences]; rewrite H;
    [reflexivity|now rewrite IH].
Qed.

Lemma present_ext (f g : str -> bool) (s : str) :
  (forall t, f t = g t) -> present f s = present g s.
Proof. intros H. unfold present. now rewrite (occurrences_ext f g s H). Qed.

Lemma present_nil (f : str -> bool) : present f [] = f [].
Proof. unfold present. cbn [occurrences]. now destruct (f []). Qed.

Lemma present_cons (f : str -> bool) (c : char) (s : str) :
  present f (c :: s) = f (c :: s) || present f s.
Proof.
  unfold present. cbn [occurrences]. now destruct (f (c :: s)).
Qed.

Lemma present_or (f g : str -> bool) (s : str) :
  present (fun t => f t || g t) s = present f s || present g s.
Proof.
  induction s as [|c s IH]; [now rewrite !present_nil|].
  rewrite !present_cons, IH.
  destruct (f (c :: s)), (g (c :: s)), (present f s), (present g s);
    reflexivity.
Qed.

(** A pattern character that is not a letter matches itself only. *)
Lemma ci_exact (p x : char) :
  is_lower p = false -> casefold p = p -> ci p x = true -> x = p.
Proof.
  unfold ci, is_lower. intros Hl Hp H. rewrite Hp in H.
  apply N.eqb_eq in H. unfold casefold in H.
  repeat match type of H with
         | context [if ?b then _ else _] => destruct b eqn:?
         end; bool_facts; lia.
Qed.

Lemma space_not_paren (c : char) : is_space c = true -> ci 40%N c = false.
Proof.
  intros Hs. destruct (ci 40%N c) eqn:E; [|reflexivity].
  apply ci_exact in E; [|reflexivity|reflexivity].
  subst c. discriminate Hs.
Qed.

(** [\s*\(] consumes the whitespace in front of the parenthesis, all of
    it, and nothing else. *)
Lemma rests_paren (s : str) :
  rests (Cat (Star is_space) (lit (py "("))) s
  = if starts_ci (py "(") (lstrip s) then [skipn 1 (lstrip s)] else [].
Proof.
  cbn [rests]. induction s as [|c s IH]; [reflexivity|].
  cbn [star_rests lstrip]. destruct (is_space c) eqn:Hs.
  - rewrite flat_map_app, IH. cbn [flat_map]. rewrite rests_lit.
    change (starts_ci (py "(") (c :: s)) with (ci 40%N c && true).
    rewrite (space_not_paren c Hs). cbn [andb]. now rewrite !app_nil_r.
  - cbn [flat_map]. rewrite rests_lit, app_nil_r. reflexivity.
Qed.

Lemma rests_call (w s : str) :
  rests (Cat (lit w) (Cat (Star is_space) (lit (py "(")))) s
  = if call_at w s then [skipn 1 (lstrip (skipn (length w) s))] else [].
Proof.
  unfold call_at.
  change (rests (Cat (lit w) (Cat (Star is_space) (lit (py "(")))) s)
    with (flat_map (rests (Cat (Star is_space) (lit (py "("))))
                   (rests (lit w) s)).
  rewrite rests_lit. destruct (starts_ci w s); [|reflexivity].
  cbn [flat_map andb]. rewrite rests_paren, app_nil_r. reflexivity.
Qed.

Lemma matches_call (w s : str) :
  matches (Cat (lit w) (Cat (Star is_space) (lit (py "(")))) s = call_at w s.
Proof.
  unfold matches, match_at. rewrite rests_call.
  now destruct (call_at w s).
Qed.

Lemma rests_cat_alt (r1 r2 r : regex) (s : str) :
  rests (Cat (Alt r1 r2) r) s = rests (Cat r1 r) s ++ rests (Cat r2 r) s.
Proof. cbn [rests]. apply flat_map_app. Qed.

Lemma matches_aggregate_call (s : str) :
  matches Scoring.aggregate_call s = aggregate_at s.
Proof.
  unfold matches, match_at, Scoring.aggregate_call, aggregate_at.
  rewrite !rests_cat_alt, !rests_call.
  destruct (call_at (py "COUNT") s); [reflexivity|].
  destruct (call_at (py "SUM") s); [reflexivity|].
  destruct (call_at (py "AVG") s); [reflexivity|].
  destruct (call_at (py "MAX") s); [reflexivity|].
  destruct (call_at (py "MIN") s); reflexivity.
Qed.

(** ** Counting matches

    [re.findall] passes over the characters of a match before it looks
    for the next one.  When no match starts inside another, it finds as
    many matches as there are positions with a match. *)

Lemma findall_from_count (r : regex) (s : str) :
  no_overlap r ->
  forall skip,
    skip <= length s ->
    (forall j, j < skip -> match_at r (skipn j s) = None) ->
    length (findall_from r s skip) = occurrences (matches r) s.
Proof.
  intros Hno. induction s as [|c s IH]; intros skip Hlen Hclear.
  - assert (skip = 0) as -> by (simpl in Hlen; lia).
    cbn [findall_from occurrences]. unfold matches.
    now destruct (match_at r []).
  - rewrite findall_from_cons. cbn [occurrences]. unfold matches at 1.
    destruct skip as [|k].
    + destruct (match_at r (c :: s)) as [rest|] eqn:E.
      * destruct (Hno _ _ E) as [Hlt Hin]. cbn [length].
        rewrite IH; [reflexivity| |].
        -- cbn [length] in *. lia.
        -- intros j Hj. apply (Hin (S j)).
           cbn [length] in *. lia.
      * rewrite IH; [reflexivity|lia|]. intros j Hj. lia.
    + pose proof (Hclear 0 (Nat.lt_0_succ k)) as H0.
      cbn [skipn] in H0. rewrite H0.
      rewrite IH; [reflexivity| |].
      * cbn [length] in Hlen. lia.
      * intros j Hj. apply (Hclear (S j)). lia.
Qed.

Lemma findall_count (r : regex) (s : str) :
  no_overlap r -> length (findall r s) = occurrences (matches r) s.
Proof.
  intros Hno. unfold findall. apply findall_from_count;
    [assumption|lia|]. intros j Hj. lia.
Qed.

(** ** Matches of the counted patterns do not overlap *)

Lemma ci_same (p q x : char) :
  ci p x = true -> ci q x = (casefold p =? casefold q)%N.
Proof. unfold ci. intros H. apply N.eqb_eq in H. now rewrite H. Qed.

Lemma starts_ci_length (w s : str) :
  starts_ci w s = true -> length w <= length s.
Proof.
  revert s. induction w as [|p w IH]; intros [|x s] H; cbn [length];
    try lia; [discriminate|].
  cbn [starts_ci] in H. apply andb_true_iff in H. destruct H as [_ H].
  specialize (IH _ H). lia.
Qed.

(** Inside an occurrence of [w], no character matches [p] when no
    character of [w] folds to it. *)
Lemma no_head_inside (p : char) (w s : str) (k : nat) :
  starts_ci w s = true ->
  forallb (fun q => negb (casefold q =? casefold p)%N) w = true ->
  k < length w ->
  exists x t, skipn k s = x :: t /\ ci p x = false.
Proof.
  revert s k. induction w as [|q w IH]; intros s k Hs Hw Hk;
    [cbn [length] in Hk; lia|].
  destruct s as [|x s]; [discriminate|].
  cbn [starts_ci] in Hs. apply andb_true_iff in Hs. destruct Hs as [Hx Hs].
  cbn [forallb] in Hw. apply andb_true_iff in Hw. destruct Hw as [Hq Hw].
  destruct k as [|k].
  - exists x, s. split; [reflexivity|].
    rewrite (ci_same q p x Hx). now apply negb_true_iff in Hq.
  - cbn [skipn]. apply IH; [assumption|assumption|cbn [length] in Hk; lia].
Qed.

Lemma no_overlap_lit (w : str) : head_unique w = true -> no_overlap (lit w).
Proof.
  destruct w as [|p w]; [discriminate|]. cbn [head_unique]. intros Hu.
  intros s rest H. unfold match_at in H. rewrite rests_lit in H.
  destruct (starts_ci (p :: w) s) eqn:Hs; [|discriminate].
  assert (Hr : rest = skipn (length (p :: w)) s)
    by (cbn [hd_error] in H; congruence).
  clear H. subst rest. pose proof (starts_ci_length _ _ Hs) as Hlen.
  rewrite length_skipn. cbn [length] in *. split; [lia|].
  intros k Hk. destruct s as [|x s]; [cbn [length] in Hlen; lia|].
  cbn [starts_ci] in Hs. apply andb_true_iff in Hs. destruct Hs as [_ Hs].
  destruct k as [|k]; [lia|]. cbn [skipn length] in *.
  destruct (no_head_inside p w s k Hs Hu) as (y & t & -> & Hy); [lia|].
  unfold match_at. rewrite rests_lit. cbn [starts_ci]. now rewrite Hy.
Qed.

Lemma space_not_letter (p y : char) :
  is_space y = true -> is_lower (casefold p) = true -> ci p y = false.
Proof.
  intros Hs Hp. destruct (ci p y) eqn:E; [|reflexivity].
  unfold ci in E. apply N.eqb_eq in E. rewrite <- E in Hp. clear E p.
  unfold is_space, is_lower, casefold in *.
  repeat match type of Hp with
         | context [if ?b then _ else _] => destruct b eqn:?
         end; bool_facts; lia.
Qed.

Lemma paren_not_letter (p y : char) :
  ci 40%N y = true -> is_lower (casefold p) = true -> ci p y = false.
Proof.
  intros Hy Hp. rewrite (ci_same _ p _ Hy).
  change (casefold 40%N) with 40%N. unfold is_lower in Hp.
  apply N.eqb_neq. bool_facts. lia.
Qed.

(** In front of the parenthesis of a call no keyword starts. *)
Lemma paren_next (p : char) (w r : str) :
  starts_ci (py "(") (lstrip r) = true ->
  is_lower (casefold p) = true ->
  starts_ci (p :: w) r = false.
Proof.
  intros Hr Hp. destruct r as [|y r]; [reflexivity|].
  cbn [starts_ci]. cbn [lstrip] in Hr. destruct (is_space y) eqn:Hy.
  - now rewrite (space_not_letter p y Hy Hp).
  - change (starts_ci (py "(") (y :: r)) with (ci 40%N y && true) in Hr.
    apply andb_true_iff in Hr. destruct Hr as [Hr _].
    now rewrite (paren_not_letter p y Hr Hp).
Qed.

Lemma starts_ci_cons (p : char) (w : str) (x : char) (s : str) :
  starts_ci (p :: w) (x :: s) = ci p x && starts_ci w s.
Proof. reflexivity. Qed.

Lemma length_lstrip (r : str) : length (lstrip r) <= length r.
Proof.
  induction r as [|c r IH]; [reflexivity|]. cbn [lstrip].
  destruct (is_space c); cbn [length]; lia.
Qed.

(** From the end of the keyword to the parenthesis there is whitespace
    only. *)
Lemma before_paren (r : str) (j : nat) :
  starts_ci (py "(") (lstrip r) = true ->
  j <= length r - length (lstrip r) ->
  exists y t, skipn j r = y :: t /\ (is_space y = true \/ ci 40%N y = true).
Proof.
  revert j. induction r as [|c r IH]; intros j Hr Hj; [discriminate|].
  cbn [lstrip] in *. destruct (is_space c) eqn:Hc.
  - destruct j as [|j]; [exists c, r; now split; [|left]|].
    cbn [skipn]. apply IH; [assumption|].
    pose proof (length_lstrip r). cbn [length] in Hj. lia.
  - assert (j = 0) as -> by lia. exists c, r. split; [reflexivity|].
    right. change (starts_ci (py "(") (c :: r)) with (ci 40%N c && true) in Hr.
    now apply andb_true_iff in Hr.
Qed.

Lemma aggregate_not_at (y : char) (t : str) :
  is_space y = true \/ ci 40%N y = true -> aggregate_at (y :: t) = false.
Proof.
  intros Hy.
  assert (H : forall p, is_lower (casefold p) = true -> ci p y = false).
  { intros p Hp. destruct Hy as [Hy|Hy];
      [now apply space_not_letter|now apply paren_not_letter]. }
  unfold aggregate_at, call_at. spell_out. rewrite !starts_ci_cons.
  rewrite !H by reflexivity. reflexivity.
Qed.

(** Inside the keyword of an aggregate call no aggregate call starts. *)
Lemma aggregate_inside (w s : str) (k : nat) :
  In w [py "COUNT"; py "SUM"; py "AVG"; py "MAX"; py "MIN"] ->
  call_at w s = true ->
  0 < k < length w ->
  aggregate_at (skipn k s) = false.
Proof.
  intros Hw Hc Hk. unfold call_at in Hc. apply andb_true_iff in Hc.
  destruct Hc as [Hs Hp].
  repeat (destruct Hw as [<-|Hw]); [..|destruct Hw]; spell_out;
    cbn [length] in *;
    repeat (let x := fresh "x" in
            destruct s as [|x s]; [discriminate Hs|];
            rewrite starts_ci_cons in Hs; apply andb_true_iff in Hs;
            let Hx := fresh "Hx" in destruct Hs as [Hx Hs]);
    cbn [skipn] in Hp;
    (destruct k as [|k]; [lia|]); split_index k; cbn [skipn];
    unfold aggregate_at, call_at; spell_out; rewrite ?starts_ci_cons;
    repeat match goal with
           | Hx : ci ?q ?x = true |- context [ci _ ?x] =>
               rewrite !(ci_same q _ x Hx); clear Hx
           end;
    rewrite ?(paren_next _ _ s Hp) by reflexivity;
    fold_eqs; cbn [andb orb]; reflexivity.
Qed.

Lemma matches_false (r : regex) (s : str) :
  matches r s = false -> match_at r s = None.
Proof. unfold matches. now destruct (match_at r s). Qed.

Lemma call_no_overlap (w s : str) :
  In w [py "COUNT"; py "SUM"; py "AVG"; py "MAX"; py "MIN"] ->
  call_at w s = true ->
  length (skipn 1 (lstrip (skipn (length w) s))) < length s
  /\ forall k,
       0 < k < length s - length (skipn 1 (lstrip (skipn (length w) s))) ->
       match_at Scoring.aggregate_call (skipn k s) = None.
Proof.
  intros Hw Hc. pose proof Hc as Hc'. unfold call_at in Hc'.
  apply andb_true_iff in Hc'. destruct Hc' as [Hs Hp].
  pose proof (starts_ci_length _ _ Hs) as Hlen.
  pose proof (length_lstrip (skipn (length w) s)) as Hstrip.
  pose proof (before_paren (skipn (length w) s)) as Hregion.
  rewrite length_skipn in *.
  destruct (lstrip (skipn (length w) s)) as [|y t] eqn:Hl;
    [discriminate Hp|].
  cbn [skipn length] in *. split; [lia|].
  intros k Hk. apply matches_false. rewrite matches_aggregate_call.
  destruct (Nat.ltb_spec k (length w)) as [Hin|Hout].
  - apply (aggregate_inside w); [assumption|assumption|lia].
  - destruct (Hregion (k - length w) Hp) as (y' & t' & E & Hy); [lia|].
    rewrite skipn_skipn in E.
    replace (k - length w + length w) with k in E by lia.
    rewrite E. now apply aggregate_not_at.
Qed.

Lemma no_overlap_aggregate_call : no_overlap Scoring.aggregate_call.
Proof.
  intros s rest H. unfold match_at, Scoring.aggregate_call in H.
  rewrite !rests_cat_alt, !rests_call in H.
  repeat match type of H with
         | context [call_at ?w s] =>
             destruct (call_at w s) eqn:?;
             [ assert (Hr : rest = skipn 1 (lstrip (skipn (length w) s)))
                 by (cbn [hd_error app] in H; congruence);
               rewrite Hr; apply call_no_overlap;
               [cbn [In]; tauto|assumption]
             | cbn [app] in H ]
         end.
  discriminate H.
Qed.

(** ** The score, signal by signal *)

Lemma search_lit (w s : str) : search (lit w) s = present (starts_ci w) s.
Proof.
  rewrite search_present. apply present_ext. intros t. apply matches_lit.
Qed.

Lemma search_set_operation (s : str) :
  search Scoring.set_operation s
  = present (starts_ci (py "UNION")) s
    || present (starts_ci (py "INTERSECT")) s
    || present (starts_ci (py "EXCEPT")) s.
Proof.
  rewrite search_present. unfold Scoring.set_operation.
  rewrite <- !present_or. apply present_ext. intros t.
  rewrite !matches_alt, !matches_lit. apply orb_assoc.
Qed.

Lemma search_window_call (s : str) :
  search Scoring.window_call s = present (call_at (py "OVER")) s.
Proof.
  rewrite search_present. apply present_ext. intros t. apply matches_call.
Qed.

Lemma search_pivot (s : str) :
  search Scoring.pivot s
  = present (starts_ci (py "PIVOT")) s || present (starts_ci (py "UNPIVOT")) s.
Proof.
  rewrite search_present. unfold Scoring.pivot.
  rewrite <- present_or. apply present_ext. intros t.
  now rewrite matches_alt, !matches_lit.
Qed.

Lemma count_matches_lit (w s : str) :
  head_unique w = true ->
  Scoring.count_matches (lit w) s = Z.of_nat (occurrences (starts_ci w) s).
Proof.
  intros Hw. unfold Scoring.count_matches.
  rewrite (findall_count _ _ (no_overlap_lit w Hw)).
  f_equal. apply occurrences_ext. intros t. apply matches_lit.
Qed.

Lemma count_matches_aggregate_call (s : str) :
  Scoring.count_matches Scoring.aggregate_call s
  = Z.of_nat (occurrences aggregate_at s).
Proof.
  unfold Scoring.count_matches.
  rewrite (findall_count _ _ no_overlap_aggregate_call).
  f_equal. apply occurrences_ext. intros t. apply matches_aggregate_call.
Qed.

Lemma aggregation_points_of_nat (n : nat) :
  Scoring.aggregation_points (Z.of_nat n)
  = match n with
    | O => 0%Z
    | S extra => (2 + Z.of_nat extra)%Z
    end.
Proof. unfold Scoring.aggregation_points. destruct n; lia. Qed.

Lemma if_weight (b : bool) (x w : Z) :
  (if b then (x + w)%Z else x) = (x + weight b w)%Z.
Proof. destruct b; unfold weight; lia. Qed.

Lemma weight_nonneg (b : bool) (w : Z) : (0 <= w -> 0 <= weight b w)%Z.
Proof. destruct b; unfold weight; lia. Qed.

Lemma score_query_signals (q : str) : Scoring.score_query q = score_spec q.
Proof.
  unfold Scoring.score_query. cbv zeta. rewrite !if_weight.
  unfold Scoring.select_star, Scoring.nested_select.
  rewrite !search_lit, search_set_operation, search_window_call,
    search_pivot.
  rewrite !count_matches_lit by reflexivity.
  rewrite count_matches_aggregate_call, aggregation_points_of_nat.
  unfold score_spec. lia.
Qed.



(** ** Putting a construct at the end of a text *)

Lemma starts_ci_survives (w : str) : survives_append (starts_ci w).
Proof.
  intros s c. revert s. induction w as [|p w IH]; intros s H;
    [reflexivity|].
  destruct s as [|x s]; [discriminate|]. cbn [app starts_ci] in *.
  apply andb_true_iff in H. destruct H as [-> H]. now apply IH.
Qed.

Lemma lstrip_app (r c : str) :
  lstrip r <> [] -> lstrip (r ++ c) = lstrip r ++ c.
Proof.
  induction r as [|x r IH]; intros H; [now contradiction H|].
  cbn [app lstrip] in *. destruct (is_space x); [now apply IH|reflexivity].
Qed.

Lemma call_at_survives (w : str) : survives_append (call_at w).
Proof.
  intros s c H. unfold call_at in *. apply andb_true_iff in H.
  destruct H as [Hs Hp]. rewrite (starts_ci_survives w s c Hs). cbn [andb].
  pose proof (starts_ci_length _ _ Hs) as Hlen.
  rewrite skipn_app.
  replace (length w - length s) with 0 by lia. cbn [skipn].
  rewrite lstrip_app; [now apply starts_ci_survives|].
  intros E. rewrite E in Hp. discriminate Hp.
Qed.

Lemma aggregate_at_survives : survives_append aggregate_at.
Proof.
  intros s c H. unfold aggregate_at in *.
  repeat match type of H with
         | (_ || _) = true => apply orb_true_iff in H; destruct H as [H|H]
         end;
    rewrite (call_at_survives _ s c H); cbn [orb];
    rewrite ?orb_true_r; reflexivity.
Qed.

Lemma occurrences_app_le (here : str -> bool) (t c : str) :
  survives_append here -> occurrences here t <= occurrences here (t ++ c).
Proof.
  intros Hs. induction t as [|x t IH].
  - cbn [app occurrences]. destruct (here []) eqn:E; [|lia].
    pose proof (Hs [] c E) as Hc. cbn [app] in Hc.
    destruct c; cbn [occurrences]; rewrite Hc; lia.
  - cbn [app occurrences]. destruct (here (x :: t)) eqn:E.
    + pose proof (Hs _ c E) as Hc. cbn [app] in Hc. rewrite Hc. lia.
    + destruct (here (x :: t ++ c)); lia.
Qed.

Lemma present_app (here : str -> bool) (t c : str) :
  survives_append here ->
  present here t = true -> present here (t ++ c) = true.
Proof.
  intros Hs. unfold present. pose proof (occurrences_app_le here t c Hs).
  intros H0. apply Nat.ltb_lt in H0. apply Nat.ltb_lt. lia.
Qed.

Lemma star_exact (x : char) : ci 42%N x = true -> x = 42%N.
Proof. apply ci_exact; reflexivity. Qed.

Lemma starts_ci_nil (u : str) (p : char) : starts_ci (u ++ [p]) [] = false.
Proof. now destruct u. Qed.

(** A keyword that ends with ['*'] is not completed by text without
    one. *)
Lemma starts_ci_app_star (u s c : str) :
  star_free c = true ->
  starts_ci (u ++ [42%N]) (s ++ c) = true ->
  starts_ci (u ++ [42%N]) s = true.
Proof.
  revert s c. induction u as [|p u IH]; intros s c Hc H.
  - destruct s as [|y s]; [|exact H].
    destruct c as [|x c]; [discriminate|]. cbn [app starts_ci] in H.
    apply andb_true_iff in H. destruct H as [Hx _].
    apply star_exact in Hx. subst x. discriminate Hc.
  - destruct s as [|y s].
    + destruct c as [|x c]; [discriminate|].
      cbn [app starts_ci] in H. apply andb_true_iff in H.
      destruct H as [_ H]. cbn [star_free forallb] in Hc.
      apply andb_true_iff in Hc. destruct Hc as [_ Hc].
      specialize (IH [] c Hc H). now rewrite starts_ci_nil in IH.
    + cbn [app starts_ci] in *. apply andb_true_iff in H.
      destruct H as [-> H]. now apply (IH s c).
Qed.

Lemma star_keyword_absent (u c : str) :
  star_free c = true -> present (starts_ci (u ++ [42%N])) c = false.
Proof.
  induction c as [|x c IH]; intros Hc.
  - rewrite present_nil. apply starts_ci_nil.
  - rewrite present_cons. cbn [star_free forallb] in Hc.
    pose proof Hc as Hc'. apply andb_true_iff in Hc'.
    destruct Hc' as [_ Hc'].
    rewrite (IH Hc'), orb_false_r.
    destruct (starts_ci (u ++ [42%N]) (x :: c)) eqn:E; [|reflexivity].
    pose proof (starts_ci_app_star u [] (x :: c) Hc E) as H.
    now rewrite starts_ci_nil in H.
Qed.

Lemma star_keyword_app (u t c : str) :
  star_free c = true ->
  present (starts_ci (u ++ [42%N])) (t ++ c)
  = present (starts_ci (u ++ [42%N])) t.
Proof.
  intros Hc. induction t as [|x t IH].
  - cbn [app]. rewrite present_nil, starts_ci_nil.
    now apply star_keyword_absent.
  - cbn [app]. rewrite !present_cons, IH. f_equal.
    destruct (starts_ci (u ++ [42%N]) (x :: t)) eqn:E.
    + apply (starts_ci_survives _ _ c E).
    + destruct (starts_ci (u ++ [42%N]) (x :: t ++ c)) eqn:E';
        [|reflexivity].
      pose proof (starts_ci_app_star u (x :: t) c Hc E') as H. congruence.
Qed.

Lemma weight_mono (b b' : bool) (w : Z) :
  (b = true -> b' = true) -> (0 <= w)%Z -> (weight b w <= weight b' w)%Z.
Proof.
  intros H Hw. destruct b; [rewrite H by reflexivity; lia|].
  destruct b'; unfold weight; lia.
Qed.

Lemma orb_mono (a a' b b' : bool) :
  (a = true -> a' = true) -> (b = true -> b' = true) ->
  a || b = true -> a' || b' = true.
Proof.
  intros Ha Hb H. apply orb_true_iff in H. apply orb_true_iff.
  destruct H; [left|right]; auto.
Qed.

(** Text without ['*'] put at the end of a query never lowers its
    score. *)
Lemma score_spec_app (t c : str) :
  star_free c = true -> (score_spec t <= score_spec (t ++ c))%Z.
Proof.
  intros Hc. unfold score_spec.
  change (py "SELECT *") with (py "SELECT " ++ [42%N]).
  rewrite (star_keyword_app _ t c Hc).
  pose proof (occurrences_app_le _ t c (starts_ci_survives (py "JOIN"))).
  pose proof (occurrences_app_le _ t c (starts_ci_survives (py "(SELECT"))).
  pose proof (occurrences_app_le _ t c aggregate_at_survives) as Ha.
  assert (Hagg :
    (match occurrences aggregate_at t with
     | O => 0 | S extra => 2 + Z.of_nat extra end
     <= match occurrences aggregate_at (t ++ c) with
        | O => 0 | S extra => 2 + Z.of_nat extra end)%Z).
  { destruct (occurrences aggregate_at t),
      (occurrences aggregate_at (t ++ c)); lia. }
  repeat apply Z.add_le_mono;
    try (apply weight_mono; [|lia]);
    repeat apply orb_mono;
    try (apply present_app;
         first [apply starts_ci_survives | apply call_at_survives]);
    try assumption; try lia; auto.
Qed.

Lemma space_star_free (sep : str) :
  forallb is_space sep = true -> star_free sep = true.
Proof.
  unfold star_free. induction sep as [|x sep IH]; intros H; [reflexivity|].
  cbn [forallb] in *. apply andb_true_iff in H. destruct H as [Hx H].
  rewrite (IH H), andb_true_r. apply negb_true_iff.
  destruct (N.eqb_spec x 42) as [->|_]; [discriminate Hx|reflexivity].
Qed.

Lemma qualifying_star_free (construct : str) :
  In construct qualifying_constructs -> star_free construct = true.
Proof.
  unfold qualifying_constructs. intros H.
  repeat (destruct H as [<-|H]; [reflexivity|]). destruct H.
Qed.

(** C9: a qualifying construct of the weight table put at the end of a
    query text, after any whitespace or none, gives a text whose score is
    at least the score of the query. *)
Theorem construct_never_lowers_score (query sep construct : str) :
  In construct qualifying_constructs ->
  forallb is_space sep = true ->
  (Scoring.score_query query
   <= Scoring.score_query (query ++ sep ++ construct))%Z.
Proof.
  intros Hin Hsep. rewrite !score_query_signals. apply score_spec_app.
  unfold star_free. rewrite forallb_app. apply andb_true_iff. split.
  - now apply space_star_free.
  - now apply qualifying_star_free.
Qed.

Lemma construct_never_lowers_score_witness :
  (Scoring.score_query (py "SELECT a FROM t")
   <= Scoring.score_query (py "SELECT a FROM t" ++ py " " ++ py "WHERE"))%Z
  /\ Scoring.score_query (py "SELECT a FROM t") = 1%Z
  /\ Scoring.score_query (py "SELECT a FROM t" ++ py " " ++ py "WHERE")
     = 3%Z.
Proof.
  split; [|split; reflexivity].
  apply (construct_never_lowers_score (py "SELECT a FROM t") (py " ")
           (py "WHERE")).
  - right. left. reflexivity.
  - reflexivity.
Defined.

(** ** Ordered dictionaries and counters *)

Lemma str_eqb_spec (a b : str) : reflect (a = b) (str_eqb a b).
Proof.
  destruct (str_eqb a b) eqn:E; constructor;
    [now apply str_eqb_eq|now apply str_eqb_neq].
Qed.

Lemma lookup_update {V : Type} (dflt : V) (k : str) (f : V -> V)
  (d : Usage.odict V) (c : str) :
  Usage.lookup c (Usage.update dflt k f d)
  = if str_eqb c k
    then Some (f match Usage.lookup k d with
                 | Some v => v
                 | None => dflt
                 end)
    else Usage.lookup c d.
Proof.
  induction d as [|[k' v] d IH]; cbn [Usage.update Usage.lookup].
  - reflexivity.
  - destruct (str_eqb_spec k k') as [<-|Hk]; cbn [Usage.lookup].
    + destruct (str_eqb_spec c k); reflexivity.
    + rewrite IH. destruct (str_eqb_spec c k') as [->|Hc]; [|reflexivity].
      destruct (str_eqb_spec k' k); [congruence|reflexivity].
Qed.

Lemma keys_update {V : Type} (dflt : V) (k : str) (f : V -> V)
  (d : Usage.odict V) :
  map fst (Usage.update dflt k f d)
  = if mem k (map fst d) then map fst d else map fst d ++ [k].
Proof.
  induction d as [|[k' v] d IH]; [reflexivity|].
  cbn [Usage.update map fst mem existsb].
  destruct (str_eqb_spec k k') as [<-|Hk]; [reflexivity|].
  cbn [map fst orb]. rewrite IH. fold (mem k (map fst d)).
  now destruct (mem k (map fst d)).
Qed.

Lemma NoDup_keys_update {V : Type} (dflt : V) (k : str) (f : V -> V)
  (d : Usage.odict V) :
  NoDup (map fst d) -> NoDup (map fst (Usage.update dflt k f d)).
Proof.
  intros H. rewrite keys_update. destruct (mem k (map fst d)) eqn:E;
    [assumption|].
  apply NoDup_snoc; [assumption|]. intros Hin. apply mem_In in Hin.
  congruence.
Qed.

Lemma In_lookup {V : Type} (d : Usage.odict V) (k : str) (v : V) :
  NoDup (map fst d) -> In (k, v) d -> Usage.lookup k d = Some v.
Proof.
  induction d as [|[k' v'] d IH]; intros Hnd Hin; [destruct Hin|].
  cbn [map fst] in Hnd. inversion Hnd as [|? ? Hk Hd]; subst.
  cbn [Usage.lookup]. destruct Hin as [E|Hin].
  - injection E as -> ->. now rewrite str_eqb_refl.
  - destruct (str_eqb_spec k k') as [->|_]; [|now apply IH].
    exfalso. apply Hk. apply (in_map fst) in Hin. exact Hin.
Qed.

(** ** The aggregation loop, club by club *)

Section UsageRollup.

Variable float : Type.
Variable float_of_str : str -> option float.
Variable float_zero : float.
Variable float_sum : list float -> float.
Variable float_div : float -> nat -> float.
Variable float_fmt2 : float -> str.

Lemma counts_at_add_score (env k : str) (x : float)
  (cd : Usage.odict (Usage.club_entry float)) (c : str) :
  counts_at float env
    (Usage.update (Usage.new_club float) k (Usage.add_score float x) cd) c
  = counts_at float env cd c.
Proof.
  unfold counts_at. rewrite lookup_update.
  destruct (str_eqb_spec c k) as [->|_]; [|reflexivity].
  destruct (Usage.lookup k cd); unfold table_counts;
    destruct (str_eqb env (py "legacy")); reflexivity.
Qed.

Lemma counts_at_use_legacy (env k t : str)
  (cd : Usage.odict (Usage.club_entry float)) (c : str) :
  counts_at float env
    (Usage.update (Usage.new_club float) k (Usage.use_legacy float t) cd) c
  = if str_eqb c k && str_eqb env (py "legacy")
    then Usage.incr t (counts_at float env cd c)
    else counts_at float env cd c.
Proof.
  unfold counts_at. rewrite lookup_update.
  destruct (str_eqb_spec c k) as [->|_]; [|reflexivity].
  destruct (Usage.lookup k cd); unfold table_counts;
    destruct (str_eqb env (py "legacy")); reflexivity.
Qed.

Lemma counts_at_use_gridiron (env k t : str)
  (cd : Usage.odict (Usage.club_entry float)) (c : str) :
  counts_at float env
    (Usage.update (Usage.new_club float) k (Usage.use_gridiron float t) cd) c
  = if str_eqb c k && negb (str_eqb env (py "legacy"))
    then Usage.incr t (counts_at float env cd c)
    else counts_at float env cd c.
Proof.
  unfold counts_at. rewrite lookup_update.
  destruct (str_eqb_spec c k) as [->|_]; [|reflexivity].
  destruct (Usage.lookup k cd); unfold table_counts;
    destruct (str_eqb env (py "legacy")); reflexivity.
Qed.

(** One table column increments the counter of the row's club for the
    row's environment, and no other. *)
Lemma counts_at_column_step (env club_in data_env : str)
  (st : Usage.state float) (cell c : str) :
  env = py "legacy" \/ env = py "gridiron" ->
  counts_at float env
    (fst (Usage.column_step float club_in data_env st cell)) c
  = if Usage.nonempty (strip cell)
       && (Usage.nonempty c && str_eqb club_in c && str_eqb data_env env)
    then Usage.incr (strip cell) (counts_at float env (fst st) c)
    else counts_at float env (fst st) c.
Proof.
  intros Henv. unfold Usage.column_step. cbv zeta.
  destruct (Usage.nonempty (strip cell)); [|reflexivity].
  cbn [andb fst].
  destruct (str_eqb_spec club_in c) as [->|Hc].
  - rewrite andb_true_r.
    destruct (Usage.nonempty c); cbn [andb]; [|reflexivity].
    destruct (str_eqb_spec data_env (py "legacy")) as [->|Hl]; cbn [orb].
    + rewrite counts_at_use_legacy, str_eqb_refl. cbn [andb].
      destruct Henv as [->| ->]; reflexivity.
    + destruct (str_eqb_spec data_env (py "gridiron")) as [->|Hg].
      * rewrite counts_at_use_gridiron, str_eqb_refl. cbn [andb].
        destruct Henv as [->| ->]; reflexivity.
      * destruct (str_eqb_spec data_env env) as [->|_]; [|reflexivity].
        destruct Henv; congruence.
  - rewrite andb_false_r. cbn [andb].
    assert (Hc' : str_eqb c club_in = false)
      by (apply str_eqb_neq; congruence).
    destruct (Usage.nonempty club_in
              && (str_eqb data_env (py "legacy")
                  || str_eqb data_env (py "gridiron"))); [|reflexivity].
    destruct (str_eqb data_env (py "legacy")).
    + now rewrite counts_at_use_legacy, Hc'.
    + now rewrite counts_at_use_gridiron, Hc'.
Qed.

Lemma counts_at_columns (env club_in data_env : str) (cols : list str)
  (c : str) :
  env = py "legacy" \/ env = py "gridiron" ->
  forall st : Usage.state float,
    counts_at float env
      (fst (fold_left (Usage.column_step float club_in data_env) cols st)) c
    = fold_left (fun acc t => Usage.incr t acc)
        (if Usage.nonempty c && str_eqb club_in c && str_eqb data_env env
         then filter Usage.nonempty (map strip cols)
         else [])
        (counts_at float env (fst st) c).
Proof.
  intros Henv. induction cols as [|x cols IH]; intros st.
  - cbn [fold_left map filter]. now destruct (_ && _).
  - cbn [fold_left]. rewrite IH, counts_at_column_step by assumption.
    destruct (Usage.nonempty c && str_eqb club_in c && str_eqb data_env env);
      [|now rewrite andb_false_r].
    rewrite andb_true_r. cbn [map filter].
    now destruct (Usage.nonempty (strip x)).
Qed.

(** A row increments, for each club and environment, the counters of
    [row_increments], in that order. *)
Lemma counts_at_row_step (env : str) (st : Usage.state float)
  (r : Usage.row) (c : str) :
  env = py "legacy" \/ env = py "gridiron" ->
  counts_at float env
    (fst (Usage.row_step float float_of_str float_zero st r)) c
  = fold_left (fun acc t => Usage.incr t acc) (row_increments r c env)
      (counts_at float env (fst st) c).
Proof.
  intros Henv. unfold Usage.row_step. cbv zeta.
  rewrite counts_at_columns by assumption. cbn [fst].
  unfold row_increments. f_equal.
  destruct (Usage.nonempty (strip (Usage.club r))); [|reflexivity].
  apply counts_at_add_score.
Qed.

Lemma counts_at_rows (env : str) (rows : list Usage.row) (c : str) :
  env = py "legacy" \/ env = py "gridiron" ->
  forall st : Usage.state float,
    counts_at float env
      (fst (fold_left (Usage.row_step float float_of_str float_zero)
              rows st)) c
    = fold_left (fun acc t => Usage.incr t acc) (increments rows c env)
        (counts_at float env (fst st) c).
Proof.
  intros Henv. induction rows as [|r rows IH]; intros st; [reflexivity|].
  cbn [fold_left]. rewrite IH. unfold increments. cbn [flat_map].
  rewrite fold_left_app. f_equal. now apply counts_at_row_step.
Qed.

(** At the end of the run the counter of a club for an environment is the
    one its increments build. *)
Lemma counts_at_analyze_usage (env : str) (rows : list Usage.row)
  (c : str) :
  env = py "legacy" \/ env = py "gridiron" ->
  counts_at float env
    (fst (Usage.analyze_usage float float_of_str float_zero rows)) c
  = counter_of (increments rows c env).
Proof.
  intros Henv. unfold Usage.analyze_usage. now rewrite counts_at_rows.
Qed.

Lemma NoDup_column_step (club_in data_env : str) (st : Usage.state float)
  (cell : str) :
  NoDup (map fst (fst st)) ->
  NoDup (map fst (fst (Usage.column_step float club_in data_env st cell))).
Proof.
  intros H. unfold Usage.column_step. cbv zeta.
  destruct (Usage.nonempty (strip cell)); [|assumption]. cbn [fst].
  destruct (Usage.nonempty club_in && _); [|assumption].
  destruct (str_eqb data_env (py "legacy"));
    now apply NoDup_keys_update.
Qed.

Lemma NoDup_row_step (st : Usage.state float) (r : Usage.row) :
  NoDup (map fst (fst st)) ->
  NoDup (map fst (fst (Usage.row_step float float_of_str float_zero st r))).
Proof.
  intros H. unfold Usage.row_step. cbv zeta.
  set (club_in := strip (Usage.club r)).
  set (data_env := strip (Usage.data_environment r)).
  match goal with
  | |- NoDup (map fst (fst (fold_left _ _ ?st0))) =>
      assert (H0 : NoDup (map fst (fst st0)));
      [cbn [fst]; destruct (Usage.nonempty club_in);
       [now apply NoDup_keys_update|assumption]
      |generalize dependent st0]
  end.
  induction (Usage.table_columns r) as [|x cols IH]; intros st0 H0;
    [assumption|].
  cbn [fold_left]. apply IH. now apply NoDup_column_step.
Qed.

Lemma NoDup_rows (rows : list Usage.row) :
  forall st : Usage.state float,
    NoDup (map fst (fst st)) ->
    NoDup (map fst
             (fst (fold_left (Usage.row_step float float_of_str float_zero)
                     rows st))).
Proof.
  induction rows as [|r rows IH]; intros st H; [assumption|].
  cbn [fold_left]. apply IH. now apply NoDup_row_step.
Qed.

(** No club has two entries in the aggregate. *)
Lemma NoDup_analyze_usage (rows : list Usage.row) :
  NoDup (map fst
           (fst (Usage.analyze_usage float float_of_str float_zero rows))).
Proof. unfold Usage.analyze_usage. apply NoDup_rows. constructor. Qed.

End UsageRollup.

(** ** What a counter holds after a sequence of increments *)

Lemma counter_of_snoc (evs : list str) (x : str) :
  counter_of (evs ++ [x]) = Usage.incr x (counter_of evs).
Proof. unfold counter_of. now rewrite fold_left_app. Qed.

Lemma firsts_snoc (evs : list str) (x : str) :
  firsts (evs ++ [x]) = Usage.set_add x (firsts evs).
Proof. unfold firsts. now rewrite fold_left_app. Qed.

Lemma In_set_add (x y : str) (s : list str) :
  In y (Usage.set_add x s) <-> y = x \/ In y s.
Proof.
  unfold Usage.set_add. destruct (mem x s) eqn:E.
  - apply mem_In in E. split; [now right|]. now intros [->|H].
  - rewrite in_app_iff. cbn [In]. split.
    + intros [H|[H|[]]]; [now right|now left].
    + intros [->|H]; [right; now left|now left].
Qed.

Lemma In_firsts (evs : list str) (t : str) : In t (firsts evs) <-> In t evs.
Proof.
  induction evs as [|x evs IH] using rev_ind; [reflexivity|].
  rewrite firsts_snoc, In_set_add, IH, in_app_iff. cbn [In].
  split; [intros [->|H]; auto|intros [H|[->|[]]]; auto].
Qed.

Lemma NoDup_firsts (evs : list str) : NoDup (firsts evs).
Proof.
  induction evs as [|x evs IH] using rev_ind; [constructor|].
  rewrite firsts_snoc. unfold Usage.set_add.
  destruct (mem x (firsts evs)) eqn:E; [assumption|].
  apply NoDup_snoc; [assumption|]. intros H. apply mem_In in H. congruence.
Qed.

Lemma usage_count_snoc (t x : str) (evs : list str) :
  usage_count t (evs ++ [x])
  = usage_count t evs + if str_eqb t x then 1 else 0.
Proof.
  unfold usage_count. rewrite filter_app, length_app. cbn [filter].
  now destruct (str_eqb t x).
Qed.

Lemma usage_count_absent (t : str) (evs : list str) :
  ~ In t evs -> usage_count t evs = 0.
Proof.
  unfold usage_count. induction evs as [|x evs IH]; intros H; [reflexivity|].
  cbn [filter]. destruct (str_eqb_spec t x) as [->|_].
  - exfalso. apply H. now left.
  - apply IH. intros Hin. apply H. now right.
Qed.

(** Incrementing a key of a counter whose keys are distinct. *)
Lemma incr_map (n : str -> nat) (x : str) (keys : list str) :
  NoDup keys ->
  (~ In x keys -> n x = 0) ->
  Usage.incr x (map (fun t => (t, n t)) keys)
  = map (fun t => (t, n t + if str_eqb t x then 1 else 0))
        (Usage.set_add x keys).
Proof.
  unfold Usage.incr, Usage.set_add.
  induction keys as [|k ks IH]; intros Hnd Hx.
  - cbn. rewrite str_eqb_refl, Hx by (intros []). reflexivity.
  - inversion Hnd as [|? ? Hk Hks]; subst.
    cbn [map Usage.update mem existsb].
    destruct (str_eqb_spec x k) as [->|Hxk]; cbn [orb map].
    + rewrite str_eqb_refl. f_equal; [f_equal; lia|].
      apply map_ext_in. intros t Ht.
      destruct (str_eqb_spec t k) as [->|_]; [contradiction|].
      f_equal. lia.
    + fold (mem x ks). rewrite IH; [|assumption|].
      * destruct (mem x ks); cbn [map app];
          (destruct (str_eqb_spec k x) as [->|_]; [congruence|]);
          now rewrite Nat.add_0_r.
      * intros H. apply Hx. intros [->|H']; [congruence|contradiction].
Qed.

(** The counter lists the tables by first increment, each with the number
    of its increments. *)
Lemma counter_of_firsts (evs : list str) :
  counter_of evs = map (fun t => (t, usage_count t evs)) (firsts evs).
Proof.
  induction evs as [|x evs IH] using rev_ind; [reflexivity|].
  rewrite counter_of_snoc, firsts_snoc, IH.
  rewrite incr_map.
  - apply map_ext. intros t. now rewrite usage_count_snoc.
  - apply NoDup_firsts.
  - intros H. apply usage_count_absent. now rewrite <- In_firsts.
Qed.

(** ** The order of the keys of a counter *)

Lemma first_index_app_in (a : str) (evs l : list str) :
  In a evs -> first_index a (evs ++ l) = first_index a evs.
Proof.
  induction evs as [|x evs IH]; intros H; [destruct H|].
  cbn [app first_index]. destruct (str_eqb_spec a x) as [->|Hax];
    [reflexivity|].
  f_equal. apply IH. destruct H as [->|H]; [congruence|assumption].
Qed.

Lemma first_index_lt (a : str) (evs : list str) :
  In a evs -> first_index a evs < length evs.
Proof.
  induction evs as [|x evs IH]; intros H; [destruct H|].
  cbn [first_index length]. destruct (str_eqb_spec a x) as [->|Hax]; [lia|].
  destruct H as [->|H]; [congruence|]. specialize (IH H). lia.
Qed.

Lemma first_index_absent (a : str) (evs : list str) :
  ~ In a evs -> first_index a (evs ++ [a]) = length evs.
Proof.
  induction evs as [|x evs IH]; intros H.
  - cbn. now rewrite str_eqb_refl.
  - cbn [app first_index length].
    destruct (str_eqb_spec a x) as [->|_]; [exfalso; apply H; now left|].
    f_equal. apply IH. intros Hin. apply H. now right.
Qed.

Lemma by_first_increment_snoc (evs keys : list str) (x : str) :
  by_first_increment evs keys ->
  Forall (fun a => first_index a evs < first_index x evs) keys ->
  by_first_increment evs (keys ++ [x]).
Proof.
  induction keys as [|k ks IH]; intros H Hx.
  - cbn. split; [constructor|exact I].
  - destruct H as [Hk H]. inversion Hx as [|? ? Hkx Hx']; subst.
    cbn [app by_first_increment]. split; [|now apply IH].
    apply Forall_app. split; [assumption|]. constructor; [assumption|].
    constructor.
Qed.

Lemma by_first_increment_ext (evs evs' keys : list str) :
  (forall a, In a keys -> first_index a evs' = first_index a evs) ->
  by_first_increment evs keys -> by_first_increment evs' keys.
Proof.
  induction keys as [|k ks IH]; intros He H; [exact I|].
  destruct H as [Hk H]. split.
  - rewrite Forall_forall in *. intros t Ht.
    rewrite (He k), (He t) by (cbn [In]; auto). now apply Hk.
  - apply IH; [|assumption]. intros a Ha. apply He. now right.
Qed.

Lemma firsts_by_first_increment (evs : list str) :
  by_first_increment evs (firsts evs).
Proof.
  induction evs as [|x evs IH] using rev_ind; [exact I|].
  assert (H : by_first_increment (evs ++ [x]) (firsts evs)).
  { apply (by_first_increment_ext evs); [|assumption].
    intros a Ha. apply first_index_app_in. now apply In_firsts. }
  rewrite firsts_snoc. unfold Usage.set_add.
  destruct (mem x (firsts evs)) eqn:E; [assumption|].
  assert (Hx : ~ In x evs).
  { intros Hin. apply In_firsts in Hin. apply mem_In in Hin. congruence. }
  apply by_first_increment_snoc; [assumption|].
  apply Forall_forall. intros a Ha. apply (In_firsts evs a) in Ha.
  rewrite (first_index_app_in a evs [x] Ha), (first_index_absent x evs Hx).
  now apply first_index_lt.
Qed.

Lemma by_first_increment_app (evs k1 k2 : list str) (m : str) :
  by_first_increment evs (k1 ++ m :: k2) ->
  Forall (fun t => first_index m evs < first_index t evs) k2.
Proof.
  induction k1 as [|k k1 IH]; intros H.
  - now destruct H.
  - destruct H as [_ H]. now apply IH.
Qed.

(** ** The most common item *)

(** [max_item] answers the first of the items with the largest count:
    the items before it have less, the items after it no more. *)
Lemma max_item_first (items : list (str * nat)) :
  forall best,
  exists pre post,
    best :: items = pre ++ Usage.max_item best items :: post
    /\ Forall (fun x => snd x < snd (Usage.max_item best items)) pre
    /\ Forall (fun x => snd x <= snd (Usage.max_item best items)) post.
Proof.
  induction items as [|x items IH]; intros best.
  - exists [], []. repeat split; constructor.
  - cbn [Usage.max_item]. destruct (snd best <? snd x) eqn:E.
    + apply Nat.ltb_lt in E.
      destruct (IH x) as (pre & post & Heq & Hpre & Hpost).
      exists (best :: pre), post. repeat split; [now rewrite Heq| |assumption].
      constructor; [|assumption].
      assert (Hx : In x (pre ++ Usage.max_item x items :: post))
        by (rewrite <- Heq; now left).
      rewrite Forall_forall in Hpre, Hpost.
      apply in_app_or in Hx. destruct Hx as [Hx|[Hx|Hx]].
      * specialize (Hpre _ Hx). lia.
      * rewrite Hx. exact E.
      * specialize (Hpost _ Hx). lia.
    + apply Nat.ltb_ge in E.
      destruct (IH best) as (pre & post & Heq & Hpre & Hpost).
      destruct pre as [|b pre].
      * cbn [app] in Heq. injection Heq as Hb Hitems. subst post.
        exists [], (x :: items). repeat split.
        -- cbn [app]. now rewrite <- Hb.
        -- constructor.
        -- constructor; [rewrite <- Hb; exact E|assumption].
      * cbn [app] in Heq. injection Heq as Hb Hitems. subst b.
        exists (best :: x :: pre), post. repeat split.
        -- cbn [app]. f_equal. f_equal. exact Hitems.
        -- inversion Hpre as [|? ? Hbest Hpre']; subst.
           constructor; [assumption|]. constructor; [lia|assumption].
        -- assumption.
Qed.

Lemma firsts_nil (evs : list str) : firsts evs = [] -> evs = [].
Proof.
  destruct evs as [|x evs]; [reflexivity|]. intros H.
  assert (Hx : In x (firsts (x :: evs))) by (apply In_firsts; now left).
  rewrite H in Hx. destruct Hx.
Qed.

(** The most used table of a counter built by a sequence of increments:
    none when there is no increment; otherwise a table with the largest
    number of increments, first incremented before every other table
    with as many. *)
Lemma most_used_counter_of (evs : list str) :
  (evs = [] -> Usage.most_used (counter_of evs) = [])
  /\ (evs <> [] ->
      In (Usage.most_used (counter_of evs)) evs
      /\ forall t,
           In t evs ->
           usage_count t evs
           <= usage_count (Usage.most_used (counter_of evs)) evs
           /\ (usage_count t evs
               = usage_count (Usage.most_used (counter_of evs)) evs ->
               t <> Usage.most_used (counter_of evs) ->
               first_index (Usage.most_used (counter_of evs)) evs
               < first_index t evs)).
Proof.
  split; [intros ->; reflexivity|]. intros Hne.
  rewrite counter_of_firsts.
  pose proof (firsts_by_first_increment evs) as Hord.
  assert (Hin : forall t, In t (firsts evs) <-> In t evs)
    by (intros t; apply In_firsts).
  set (g := fun t : str => (t, usage_count t evs)).
  destruct (firsts evs) as [|k ks] eqn:Ek;
    [apply firsts_nil in Ek; contradiction|].
  change (Usage.most_used (map g (k :: ks)))
    with (fst (Usage.max_item (g k) (map g ks))).
  destruct (max_item_first (map g ks) (g k))
    as (pre & post & Heq & Hpre & Hpost).
  set (r := Usage.max_item (g k) (map g ks)) in *.
  change (g k :: map g ks) with (map g (k :: ks)) in Heq.
  apply map_eq_app in Heq.
  destruct Heq as (kpre & rest & Hkeys & <- & Hrest).
  apply map_eq_cons in Hrest.
  destruct Hrest as (m & kpost & -> & Hm & <-).
  subst g. cbv beta in Hm. rewrite <- Hm in *. cbn [fst snd] in *. clear Hm.
  rewrite Hkeys in *. apply by_first_increment_app in Hord.
  rewrite Forall_map in Hpre, Hpost. rewrite Forall_forall in *.
  split; [apply Hin, in_elt|].
  intros t Ht. apply Hin in Ht. apply in_app_or in Ht.
  destruct Ht as [Ht|[<-|Ht]].
  - specialize (Hpre _ Ht). cbn [snd] in Hpre. split; lia.
  - split; [lia|congruence].
  - specialize (Hpost _ Ht). specialize (Hord _ Ht). cbn [snd] in Hpost.
    split; [lia|]. intros _ _. exact Hord.
Qed.

(** ** The most-used table of a club *)

Section MostUsed.

Variable float : Type.
Variable float_of_str : str -> option float.
Variable float_zero : float.
Variable float_sum : list float -> float.
Variable float_div : float -> nat -> float.
Variable float_fmt2 : float -> str.

(** C7: in every line of the club summary, for legacy and for gridiron,
    the most-used table is empty when the club has no increment for the
    environment; otherwise it is a table with the largest usage count,
    and every other table with the same count had its counter first
    incremented later. *)
Theorem most_used_table_tie_break
  (rows : list Usage.row) (line : Usage.club_line) (env : str) :
  In line (Usage.create_club_analysis float float_of_str float_zero
             float_sum float_div float_fmt2 rows) ->
  env = py "legacy" \/ env = py "gridiron" ->
  let evs := increments rows (Usage.line_club line) env in
  let most := most_used_of env line in
  (evs = [] -> most = [])
  /\ (evs <> [] ->
      In most evs
      /\ forall t,
           In t evs ->
           usage_count t evs <= usage_count most evs
           /\ (usage_count t evs = usage_count most evs ->
               t <> most ->
               first_index most evs < first_index t evs)).
Proof.
  intros Hline Henv. cbv zeta.
  unfold Usage.create_club_analysis in Hline. apply in_map_iff in Hline.
  destruct Hline as ([c e] & <- & Hin).
  pose proof (In_lookup _ _ _
                (NoDup_analyze_usage float float_of_str float_zero rows)
                Hin) as Hlook.
  pose proof (counts_at_analyze_usage float float_of_str float_zero
                env rows c Henv) as Hcounts.
  unfold counts_at in Hcounts. rewrite Hlook in Hcounts.
  assert (Hmost :
    most_used_of env
      (Usage.club_summary_line float float_zero float_sum float_div
         float_fmt2 (c, e))
    = Usage.most_used (counter_of (increments rows c env))).
  { rewrite <- Hcounts. unfold most_used_of, table_counts.
    now destruct (str_eqb env (py "legacy")). }
  rewrite Hmost. cbn [Usage.club_summary_line Usage.line_club fst].
  apply most_used_counter_of.
Qed.

End MostUsed.

(** Two tables used twice each by one club: the one counted first is
    reported. *)
Lemma most_used_table_tie_break_witness :
  let line := hd_error (club_analysis_Z tie_rows) in
  let evs := increments tie_rows (py "ABC") (py "gridiron") in
  option_map Usage.most_used_gridiron_table line = Some (py "sales")
  /\ usage_count (py "tickets") evs = usage_count (py "sales") evs
  /\ first_index (py "sales") evs < first_index (py "tickets") evs.
Proof.
  cbv zeta.
  destruct (club_analysis_Z tie_rows) as [|line rest] eqn:E;
    [discriminate E|].
  assert (Hin : In line (club_analysis_Z tie_rows))
    by (rewrite E; now left).
  assert (Hline : Usage.line_club line = py "ABC"
                  /\ Usage.most_used_gridiron_table line = py "sales").
  { vm_compute in E. injection E as <- _. split; reflexivity. }
  destruct Hline as [Hclub Hmost].
  destruct (most_used_table_tie_break Z (fun _ => None) 0%Z
              (fun l => fold_right Z.add 0%Z l)
              (fun x n => Z.div x (Z.of_nat n))
              (fun x => str_of_nat (Z.to_nat x))
              tie_rows line (py "gridiron") Hin (or_intror eq_refl))
    as [_ H].
  rewrite Hclub in H. unfold most_used_of in H.
  change (str_eqb (py "gridiron") (py "legacy")) with false in H.
  cbv iota in H. rewrite Hmost in H.
  destruct H as [_ H]; [vm_compute; discriminate|].
  destruct (H (py "tickets")) as [_ Hlt]; [vm_compute; tauto|].
  split; [cbn [hd_error option_map]; now rewrite Hmost|].
  split; [reflexivity|].
  apply Hlt; [reflexivity|vm_compute; discriminate].
Defined.

(** * Further properties of the three stages *)

(** ** Stage 1: the environment column *)

(** X1: [process_file] never writes "unknown" in the environment column:
    the completeness it passes on is 0 exactly when the list of references
    is empty, so the column reads "N/A" for a query without a reference,
    and otherwise "mixed" when the legacy and gridiron references are
    equally many, "legacy" or "gridiron" when one kind has more. *)
Theorem captured_environment_never_unknown (club_in q : str) :
  let r := Capture.process_row club_in q in
  let n_legacy := fst (Capture.env_counts (Capture.extract_tables q)) in
  let n_gridiron := snd (Capture.env_counts (Capture.extract_tables q)) in
  Capture.data_environment r <> Capture.env_unknown
  /\ (Capture.data_environment r = Capture.env_na
      <-> Capture.extract_tables q = [])
  /\ (Capture.data_environment r = Capture.env_na
      <-> Capture.completeness r = 0%Z)
  /\ (Capture.data_environment r = Capture.env_mixed
      <-> Capture.extract_tables q <> [] /\ n_legacy = n_gridiron)
  /\ (Capture.data_environment r = Capture.env_legacy
      <-> n_gridiron < n_legacy)
  /\ (Capture.data_environment r = Capture.env_gridiron
      <-> n_legacy < n_gridiron).
Proof.
  cbv zeta. unfold Capture.process_row. cbn [Capture.data_environment
    Capture.completeness].
  pose proof (env_counts_total (Capture.extract_tables q)) as Htot.
  destruct (Capture.extract_tables q) as [|x l] eqn:E.
  - cbn. repeat split; try discriminate; try tauto; try lia.
  - cbn [Capture.is_query_complete Capture.determine_primary_environment
         Z.eqb].
    destruct (Capture.env_counts (x :: l)) as [nl ng].
    cbn [fst snd length] in *. unfold Capture.primary_of_counts.
    destruct (Nat.ltb_spec ng nl); [|destruct (Nat.ltb_spec nl ng)].
    + repeat split; try discriminate; try congruence; try lia.
    + repeat split; try discriminate; try congruence; try lia.
    + assert (nl = ng) by lia. subst ng.
      assert ((0 <? nl) = true) as -> by (apply Nat.ltb_lt; lia).
      cbn [andb]. repeat split; try discriminate; try congruence; try lia.
Qed.

(** ** Stage 2 and the detailed report: categories and their levels *)

(** X2: every category the scorer gives has a level in the table of the
    detailed report, between 1 and 4, and a larger score never gets a
    lower level; the category of an incomplete query has none (level 0),
    and no score is given that category. *)
Theorem category_level_monotone (score score' : Z) :
  1 <= TableUsage.complexity_level (Scoring.categorize_query score) <= 4
  /\ ((score <= score')%Z ->
      TableUsage.complexity_level (Scoring.categorize_query score)
      <= TableUsage.complexity_level (Scoring.categorize_query score'))
  /\ TableUsage.complexity_level (py "Invalid/Incomplete") = 0
  /\ Scoring.categorize_query score <> py "Invalid/Incomplete".
Proof.
  unfold Scoring.categorize_query.
  destruct (Z.leb_spec score 2); [|destruct (Z.leb_spec score 6);
    [|destruct (Z.leb_spec score 13)]];
  (destruct (Z.leb_spec score' 2); [|destruct (Z.leb_spec score' 6);
    [|destruct (Z.leb_spec score' 13)]]);
  repeat split; try (vm_compute; lia); try (intros; lia);
  try (vm_compute; discriminate); vm_compute; intros; lia.
Qed.

Lemma category_level_monotone_witness :
  TableUsage.complexity_level (Scoring.categorize_query 6)
  <= TableUsage.complexity_level (Scoring.categorize_query 7).
Proof.
  destruct (category_level_monotone 6 7) as (_ & H & _).
  apply H. lia.
Defined.

(** ** Stage 2: keywords are found anywhere in the text *)

Lemma present_at (here : str -> bool) (pre s : str) :
  here s = true -> present here (pre ++ s) = true.
Proof.
  intros H. induction pre as [|c pre IH]; cbn [app].
  - destruct s; [now rewrite present_nil|].
    rewrite present_cons, H. reflexivity.
  - rewrite present_cons, IH. apply orb_true_r.
Qed.

Lemma weight_true (w : Z) : weight true w = w.
Proof. reflexivity. Qed.

(** Closes a lower bound on [score_spec] once the signal it comes from
    is known to be present in the text. *)
Ltac earn here :=
  match goal with
  | |- (_ <= score_spec ?q)%Z =>
      let Hp := fresh "Hp" in
      assert (Hp : present here q = true) by (apply present_at; reflexivity);
      pose proof Hp as Ho; unfold present in Ho; apply Nat.ltb_lt in Ho;
      unfold score_spec; rewrite ?Hp, ?orb_true_r; cbn [orb];
      rewrite ?weight_true;
      repeat match goal with
             | |- context [weight ?b ?w] =>
                 generalize (weight_nonneg b w ltac:(lia));
                 generalize (weight b w); intros ? ?
             end;
      destruct (occurrences aggregate_at q); lia
  end.

(** X3: keywords are looked for anywhere in the text, word boundaries or
    not: a text that holds a keyword form of the weight table, whatever
    stands before and after it, scores at least the weight of that
    keyword. *)
Theorem keyword_anywhere_earns_weight (pre post kw : str) (w : Z) :
  In (kw, w) keyword_weights ->
  (w <= Scoring.score_query (pre ++ kw ++ post))%Z.
Proof.
  intros Hin. rewrite score_query_signals. unfold keyword_weights in Hin.
  repeat (destruct Hin as [E|Hin];
          [apply pair_equal_spec in E; destruct E as [<- <-]|]); [..|destruct Hin].
  - earn (starts_ci (py "LIMIT")).
  - earn (starts_ci (py "WHERE")).
  - earn (starts_ci (py "HAVING")).
  - earn (starts_ci (py "ORDER BY")).
  - earn (starts_ci (py "JOIN")).
  - earn (starts_ci (py "GROUP BY")).
  - earn aggregate_at.
  - earn aggregate_at.
  - earn aggregate_at.
  - earn aggregate_at.
  - earn aggregate_at.
  - earn (starts_ci (py "(SELECT")).
  - earn (starts_ci (py "WITH")).
  - earn (starts_ci (py "UNION")).
  - earn (starts_ci (py "INTERSECT")).
  - earn (starts_ci (py "EXCEPT")).
  - earn (call_at (py "OVER")).
  - earn (starts_ci (py "PIVOT")).
  - earn (starts_ci (py "UNPIVOT")).
Qed.

(** A column named [rejoined_within] holds JOIN and WITH. *)
Lemma keyword_anywhere_earns_weight_witness :
  (3 <= Scoring.score_query
          (py "SELECT re" ++ py "JOIN" ++ py "ed_within FROM t"))%Z
  /\ Scoring.score_query (py "SELECT reJOINed_within FROM t") = 9%Z.
Proof.
  split; [|reflexivity].
  apply keyword_anywhere_earns_weight. do 4 right. left. reflexivity.
Defined.

(** ** Stage 2: the case of the letters does not matter *)

Lemma space_fold_id (a : char) : is_space a = true -> casefold a = a.
Proof.
  intros Ha. unfold casefold.
  destruct ((65 <=? a)%N && (a <=? 90)%N) eqn:E1;
    [unfold is_space in Ha; bool_facts; lia|].
  destruct ((a =? 304)%N || (a =? 305)%N) eqn:E2;
    [unfold is_space in Ha; bool_facts; lia|].
  destruct (a =? 383)%N eqn:E3; [unfold is_space in Ha; bool_facts; lia|].
  destruct (a =? 8490)%N eqn:E4; [unfold is_space in Ha; bool_facts; lia|].
  reflexivity.
Qed.

Lemma fold_space_id (b : char) :
  is_space (casefold b) = true -> casefold b = b.
Proof.
  unfold casefold.
  destruct ((65 <=? b)%N && (b <=? 90)%N) eqn:E1;
    [intros H; unfold is_space in H; bool_facts; lia|].
  destruct ((b =? 304)%N || (b =? 305)%N) eqn:E2; [discriminate|].
  destruct (b =? 383)%N eqn:E3; [discriminate|].
  destruct (b =? 8490)%N eqn:E4; [discriminate|].
  reflexivity.
Qed.

Lemma fold_space (a b : char) :
  casefold a = casefold b -> is_space a = is_space b.
Proof.
  intros H. destruct (is_space a) eqn:Ha, (is_space b) eqn:Hb;
    try reflexivity; exfalso.
  - pose proof (space_fold_id a Ha) as Ea. rewrite Ea in H.
    assert (Hs : is_space (casefold b) = true) by now rewrite <- H.
    apply fold_space_id in Hs. congruence.
  - pose proof (space_fold_id b Hb) as Eb. rewrite Eb in H.
    assert (Hs : is_space (casefold a) = true) by now rewrite H.
    apply fold_space_id in Hs. congruence.
Qed.

Lemma same_letters_cons (a b : char) (s s' : str) :
  same_letters (a :: s) (b :: s') = true ->
  casefold a = casefold b /\ same_letters s s' = true.
Proof.
  cbn [same_letters]. intros H. apply andb_true_iff in H.
  destruct H as [H1 H2]. now apply N.eqb_eq in H1.
Qed.

Lemma same_letters_starts_ci (w s s' : str) :
  same_letters s s' = true -> starts_ci w s = starts_ci w s'.
Proof.
  revert s s'. induction w as [|p w IH]; intros s s' H; [reflexivity|].
  destruct s as [|a s], s' as [|b s']; try discriminate; [reflexivity|].
  apply same_letters_cons in H. destruct H as [Hab H].
  cbn [starts_ci]. unfold ci. rewrite Hab. f_equal. now apply IH.
Qed.

Lemma same_letters_skipn (n : nat) (s s' : str) :
  same_letters s s' = true -> same_letters (skipn n s) (skipn n s') = true.
Proof.
  revert s s'. induction n as [|n IH]; intros s s' H; [exact H|].
  destruct s as [|a s], s' as [|b s']; try discriminate; [reflexivity|].
  apply same_letters_cons in H. cbn [skipn]. now apply IH.
Qed.

Lemma same_letters_lstrip (s s' : str) :
  same_letters s s' = true -> same_letters (lstrip s) (lstrip s') = true.
Proof.
  revert s'. induction s as [|a s IH]; intros [|b s'] H; try discriminate;
    [reflexivity|].
  pose proof H as H'. apply same_letters_cons in H'.
  destruct H' as [Hab Hs]. cbn [lstrip]. rewrite (fold_space a b Hab).
  destruct (is_space b); [now apply IH|exact H].
Qed.

Lemma same_letters_call_at (w s s' : str) :
  same_letters s s' = true -> call_at w s = call_at w s'.
Proof.
  intros H. unfold call_at. f_equal.
  - now apply same_letters_starts_ci.
  - apply same_letters_starts_ci. apply same_letters_lstrip.
    now apply same_letters_skipn.
Qed.

Lemma same_letters_aggregate_at (s s' : str) :
  same_letters s s' = true -> aggregate_at s = aggregate_at s'.
Proof.
  intros H. unfold aggregate_at.
  now rewrite !(same_letters_call_at _ s s' H).
Qed.

Lemma same_letters_occurrences (here : str -> bool) (s s' : str) :
  (forall t t', same_letters t t' = true -> here t = here t') ->
  same_letters s s' = true ->
  occurrences here s = occurrences here s'.
Proof.
  intros Hh. revert s'. induction s as [|a s IH]; intros [|b s'] H;
    try discriminate.
  - reflexivity.
  - cbn [occurrences]. rewrite (Hh _ _ H).
    apply same_letters_cons in H. destruct H as [_ H].
    now rewrite (IH _ H).
Qed.

Lemma same_letters_present (here : str -> bool) (s s' : str) :
  (forall t t', same_letters t t' = true -> here t = here t') ->
  same_letters s s' = true ->
  present here s = present here s'.
Proof.
  intros Hh H. unfold present.
  now rewrite (same_letters_occurrences here s s' Hh H).
Qed.

Lemma same_letters_search_lit (w q q' : str) :
  same_letters q q' = true -> search (lit w) q = search (lit w) q'.
Proof.
  intros H. rewrite !search_lit. apply same_letters_present; [|exact H].
  intros t t'. apply same_letters_starts_ci.
Qed.

Lemma same_letters_count_lit (w q q' : str) :
  head_unique w = true ->
  same_letters q q' = true ->
  Scoring.count_matches (lit w) q = Scoring.count_matches (lit w) q'.
Proof.
  intros Hw H. rewrite !count_matches_lit by assumption. f_equal.
  apply same_letters_occurrences; [|exact H].
  intros t t'. apply same_letters_starts_ci.
Qed.

(** X4: two queries that differ by the case of their letters only get
    the same score, the same category and the same explanation. *)
Theorem letter_case_does_not_matter
  (q q' : str) (completeness_in : option str) :
  same_letters q q' = true ->
  Scoring.score_query q = Scoring.score_query q'
  /\ Scoring.explain_score q = Scoring.explain_score q'
  /\ Scoring.score (Scoring.process_query_row q completeness_in)
     = Scoring.score (Scoring.process_query_row q' completeness_in)
  /\ Scoring.category (Scoring.process_query_row q completeness_in)
     = Scoring.category (Scoring.process_query_row q' completeness_in)
  /\ Scoring.explanation (Scoring.process_query_row q completeness_in)
     = Scoring.explanation (Scoring.process_query_row q' completeness_in).
Proof.
  intros H.
  assert (Hset : search Scoring.set_operation q
                 = search Scoring.set_operation q').
  { rewrite !search_set_operation.
    now rewrite !(same_letters_present _ q q'
                    (fun t t' => same_letters_starts_ci _ t t') H). }
  assert (Hwin : search Scoring.window_call q
                 = search Scoring.window_call q').
  { rewrite !search_window_call. apply same_letters_present; [|exact H].
    intros t t'. apply same_letters_call_at. }
  assert (Hpiv : search Scoring.pivot q = search Scoring.pivot q').
  { rewrite !search_pivot.
    now rewrite !(same_letters_present _ q q'
                    (fun t t' => same_letters_starts_ci _ t t') H). }
  assert (Hagg : Scoring.count_matches Scoring.aggregate_call q
                 = Scoring.count_matches Scoring.aggregate_call q').
  { rewrite !count_matches_aggregate_call. f_equal.
    apply same_letters_occurrences; [|exact H].
    apply same_letters_aggregate_at. }
  assert (Hscore : Scoring.score_query q = Scoring.score_query q').
  { unfold Scoring.score_query, Scoring.select_star, Scoring.nested_select.
    cbv zeta. rewrite Hset, Hwin, Hpiv, Hagg.
    rewrite !(same_letters_search_lit _ q q' H).
    now rewrite (same_letters_count_lit (py "JOIN") q q' eq_refl H),
      (same_letters_count_lit (py "(SELECT") q q' eq_refl H). }
  assert (Hexp : Scoring.explain_score q = Scoring.explain_score q').
  { unfold Scoring.explain_score, Scoring.select_star,
      Scoring.nested_select.
    cbv zeta. rewrite Hset, Hwin, Hpiv, Hagg.
    rewrite !(same_letters_search_lit _ q q' H).
    now rewrite (same_letters_count_lit (py "JOIN") q q' eq_refl H),
      (same_letters_count_lit (py "(SELECT") q q' eq_refl H). }
  split; [exact Hscore|]. split; [exact Hexp|].
  unfold Scoring.process_query_row.
  destruct (str_eqb _ (py "1")); cbn [Scoring.score Scoring.category
    Scoring.explanation]; rewrite ?Hscore, ?Hexp; repeat split.
Qed.

Lemma letter_case_does_not_matter_witness :
  Scoring.score_query (py "select a from t join u where a > 1")
  = Scoring.score_query (py "SELECT A FROM T JOIN U WHERE A > 1")
  /\ same_letters (py "select a from t join u where a > 1")
       (py "SELECT A FROM T JOIN U WHERE A > 1") = true.
Proof.
  split; [|vm_compute; reflexivity].
  destruct (letter_case_does_not_matter
              (py "select a from t join u where a > 1")
              (py "SELECT A FROM T JOIN U WHERE A > 1") None)
    as [H _]; [vm_compute; reflexivity|exact H].
Defined.

(** ** Stage 2: an empty explanation *)

Lemma append_if_nil (b : bool) (e : str) (l : list str) :
  Scoring.append_if b e l = [] <-> b = false /\ l = [].
Proof.
  unfold Scoring.append_if. destruct b.
  - split; [intros H; now apply app_eq_nil in H|intros [H _]; discriminate].
  - tauto.
Qed.

Lemma append_if_nonempty (b : bool) (e : str) (l : list str) :
  e <> [] -> Forall (fun x => x <> []) l ->
  Forall (fun x => x <> []) (Scoring.append_if b e l).
Proof.
  intros He Hl. unfold Scoring.append_if. destruct b; [|assumption].
  apply Forall_app. split; [assumption|]. now constructor.
Qed.

Lemma entry_nonempty (label : str) (n : Z) :
  label <> [] -> Scoring.entry label n <> [].
Proof.
  unfold Scoring.entry. destruct label; [congruence|discriminate].
Qed.

Lemma join_nil (sep : str) (l : list str) :
  Forall (fun x => x <> []) l -> join sep l = [] -> l = [].
Proof.
  intros Hl H. destruct l as [|x l]; [reflexivity|].
  inversion Hl as [|? ? Hx _]; subst. exfalso. apply Hx.
  destruct l; cbn [join] in H; [assumption|].
  now apply app_eq_nil in H.
Qed.

Lemma weight_zero (b : bool) (w : Z) :
  (0 < w)%Z -> (weight b w = 0%Z <-> b = false).
Proof.
  intros Hw. destruct b; unfold weight; split; intros H;
    try reflexivity; try discriminate; lia.
Qed.

Lemma positive_false (n : Z) : (0 <= n)%Z -> ((0 <? n)%Z = false <-> n = 0%Z).
Proof. intros Hn. rewrite Z.ltb_ge. lia. Qed.

(** X5: the explanation is empty exactly when the score is 0, that is,
    when no signal of the weight table fires (the text holds [SELECT *]
    and none of the keywords). *)
Theorem explanation_empty_iff_score_zero (query : str) :
  Scoring.explain_score query = [] <-> Scoring.score_query query = 0%Z.
Proof.
  unfold Scoring.explain_score, Scoring.score_query. cbv zeta.
  set (joins := Scoring.count_matches (lit (py "JOIN")) query).
  set (aggs := Scoring.count_matches Scoring.aggregate_call query).
  set (subs := Scoring.count_matches Scoring.nested_select query).
  assert (Hj : (0 <= joins)%Z) by apply count_matches_nonneg.
  assert (Ha : (0 <= aggs)%Z) by apply count_matches_nonneg.
  assert (Hs : (0 <= subs)%Z) by apply count_matches_nonneg.
  match goal with
  | |- join _ ?l = [] <-> _ =>
      assert (Hne : Forall (fun x => x <> []) l)
        by (repeat (apply append_if_nonempty;
                    [first [apply entry_nonempty; discriminate
                           |discriminate]|]); constructor);
      assert (Hnil : join (py ", ") l = [] <-> l = [])
        by (split; [now apply join_nil|intros ->; reflexivity]);
      rewrite Hnil; clear Hnil Hne
  end.
  rewrite !append_if_nil. rewrite !if_weight.
  rewrite !positive_false by assumption.
  assert (Hagg : (Scoring.aggregation_points aggs = 0 <-> aggs = 0)%Z)
    by (unfold Scoring.aggregation_points; lia).
  repeat match goal with
         | |- context [weight ?b ?w] =>
             let H := fresh "Hw" in
             let Hz := fresh "Hz" in
             pose proof (weight_nonneg b w ltac:(lia)) as H;
             pose proof (weight_zero b w ltac:(lia)) as Hz;
             let x := fresh "x" in
             set (x := weight b w) in *; clearbody x
         end.
  pose proof (aggregation_points_nonneg aggs Ha) as Hp.
  set (points := Scoring.aggregation_points aggs) in *. clearbody points.
  split.
  - intros H. repeat match type of H with
                     | _ /\ _ => let H1 := fresh "H" in
                                 destruct H as [H1 H]
                     end.
    repeat match goal with
           | Hz : ?x = 0%Z <-> ?b = false, Hb : ?b = false |- _ =>
               apply Hz in Hb
           end.
    assert (points = 0)%Z by tauto. lia.
  - intros H.
    assert (Hall : (joins = 0 /\ subs = 0 /\ points = 0)%Z) by lia.
    destruct Hall as (J & S & P).
    repeat match goal with
           | Hz : ?x = 0%Z <-> ?b = false |- _ =>
               assert (b = false) by (apply Hz; lia); clear Hz
           end.
    assert (aggs = 0)%Z by tauto.
    repeat split; assumption.
Qed.

(** ** Stage 3: the table aggregate, cell by cell *)

Lemma keys_cells (evs : list (str * (str * str))) :
  map fst (fold_left cell_step evs []) = firsts (map fst evs).
Proof.
  induction evs as [|ev evs IH] using rev_ind; [reflexivity|].
  rewrite fold_left_app, map_app. cbn [fold_left map].
  rewrite firsts_snoc. unfold cell_step at 1.
  rewrite keys_update, IH. reflexivity.
Qed.

Lemma cell_clubs_snoc (t : str) (evs : list (str * (str * str)))
  (ev : str * (str * str)) :
  cell_clubs t (evs ++ [ev])
  = cell_clubs t evs ++ if str_eqb t (fst ev) then [fst (snd ev)] else [].
Proof.
  unfold cell_clubs. rewrite filter_app, map_app. cbn [filter].
  now destruct (str_eqb t (fst ev)).
Qed.

Lemma cell_environments_snoc (t : str) (evs : list (str * (str * str)))
  (ev : str * (str * str)) :
  cell_environments t (evs ++ [ev])
  = cell_environments t evs
    ++ if str_eqb t (fst ev)
          && (str_eqb (snd (snd ev)) (py "legacy")
              || str_eqb (snd (snd ev)) (py "gridiron"))
       then [snd (snd ev)] else [].
Proof.
  unfold cell_environments. rewrite filter_app, map_app, filter_app.
  cbn [filter]. destruct (str_eqb t (fst ev)); cbn [map filter andb];
    [|reflexivity].
  now destruct (str_eqb (snd (snd ev)) (py "legacy")
                || str_eqb (snd (snd ev)) (py "gridiron")).
Qed.

Lemma table_entry_at_step (td : Usage.odict Usage.table_entry)
  (ev : str * (str * str)) (t : str) :
  table_entry_at (cell_step td ev) t
  = if str_eqb t (fst ev)
    then Usage.see_table (fst (snd ev)) (snd (snd ev)) (table_entry_at td t)
    else table_entry_at td t.
Proof.
  unfold table_entry_at, cell_step. rewrite lookup_update.
  destruct (str_eqb_spec t (fst ev)) as [->|Hne]; reflexivity.
Qed.

(** The entry of a table after a sequence of cells: the number of cells
    that name it, the clubs of these cells by first appearance, and the
    environment of the last of them that is legacy or gridiron. *)
Lemma table_entry_fields (evs : list (str * (str * str))) (t : str) :
  let e := table_entry_at (fold_left cell_step evs []) t in
  Usage.query_appearances e = usage_count t (map fst evs)
  /\ Usage.unique_clubs e = firsts (cell_clubs t evs)
  /\ Usage.environment e = last (cell_environments t evs) (py "unknown").
Proof.
  cbv zeta. induction evs as [|ev evs IH] using rev_ind.
  - repeat split.
  - destruct IH as (IH1 & IH2 & IH3).
    rewrite fold_left_app, map_app, cell_clubs_snoc, cell_environments_snoc.
    cbn [fold_left map]. rewrite usage_count_snoc, table_entry_at_step.
    destruct (str_eqb t (fst ev)).
    + cbn [Usage.see_table Usage.query_appearances Usage.unique_clubs
           Usage.environment andb].
      rewrite IH1, IH2, IH3, firsts_snoc. repeat split; [lia|].
      destruct (str_eqb (snd (snd ev)) (py "legacy")
                || str_eqb (snd (snd ev)) (py "gridiron"));
        [now rewrite last_last|now rewrite app_nil_r].
    + cbn [andb]. rewrite !app_nil_r, Nat.add_0_r.
      repeat split; assumption.
Qed.

Section TableRollup.

Variable float : Type.
Variable float_of_str : str -> option float.
Variable float_zero : float.

Lemma snd_columns (club_in data_env : str) (cols : list str) :
  forall st : Usage.state float,
    snd (fold_left (Usage.column_step float club_in data_env) cols st)
    = fold_left cell_step
        (map (fun t => (t, (club_in, data_env)))
           (filter Usage.nonempty (map strip cols)))
        (snd st).
Proof.
  induction cols as [|x cols IH]; intros st; [reflexivity|].
  cbn [fold_left map filter]. rewrite IH.
  unfold Usage.column_step at 1. cbv zeta.
  destruct (Usage.nonempty (strip x)); reflexivity.
Qed.

Lemma snd_rows (rows : list Usage.row) :
  forall st : Usage.state float,
    snd (fold_left (Usage.row_step float float_of_str float_zero) rows st)
    = fold_left cell_step (cell_events rows) (snd st).
Proof.
  induction rows as [|r rows IH]; intros st; [reflexivity|].
  cbn [fold_left]. rewrite IH. unfold cell_events. cbn [flat_map].
  rewrite fold_left_app. f_equal.
  unfold Usage.row_step. cbv zeta. now rewrite snd_columns.
Qed.

(** The table aggregate depends on the cells only. *)
Lemma table_data_cells (rows : list Usage.row) :
  snd (Usage.analyze_usage float float_of_str float_zero rows)
  = fold_left cell_step (cell_events rows) [].
Proof. unfold Usage.analyze_usage. now rewrite snd_rows. Qed.

End TableRollup.

(** ** Stage 3: the order of the table summary *)

Lemma insert_reverse_perm {A : Type} (key : A -> nat) (x : A) (l : list A) :
  Permutation (Usage.insert_reverse key x l) (x :: l).
Proof.
  induction l as [|y l IH]; [reflexivity|]. cbn [Usage.insert_reverse].
  destruct (key y <=? key x); [reflexivity|].
  rewrite IH. apply perm_swap.
Qed.

Lemma sorted_reverse_perm {A : Type} (key : A -> nat) (l : list A) :
  Permutation (Usage.sorted_reverse key l) l.
Proof.
  induction l as [|x l IH]; [reflexivity|].
  cbn [Usage.sorted_reverse fold_right].
  fold (Usage.sorted_reverse key l). rewrite insert_reverse_perm.
  now constructor.
Qed.

Lemma insert_reverse_descending {A : Type} (key : A -> nat) (x : A)
  (l : list A) :
  descending (map key l) ->
  descending (map key (Usage.insert_reverse key x l)).
Proof.
  induction l as [|y l IH]; intros H; [cbn; auto|].
  cbn [Usage.insert_reverse]. destruct H as [Hy Hl].
  destruct (Nat.leb_spec (key y) (key x)) as [Hle|Hlt].
  - cbn [map descending]. repeat split; try assumption.
    constructor; [assumption|].
    rewrite Forall_forall in *. intros m Hm. specialize (Hy m Hm). lia.
  - cbn [map descending]. split; [|now apply IH].
    rewrite Forall_forall in *. intros m Hm. apply in_map_iff in Hm.
    destruct Hm as (a & <- & Ha).
    apply (Permutation_in _ (insert_reverse_perm key x l)) in Ha.
    destruct Ha as [<-|Ha]; [lia|]. apply Hy. now apply in_map.
Qed.

Lemma sorted_reverse_descending {A : Type} (key : A -> nat) (l : list A) :
  descending (map key (Usage.sorted_reverse key l)).
Proof.
  induction l as [|x l IH]; [exact I|].
  cbn [Usage.sorted_reverse fold_right].
  now apply insert_reverse_descending.
Qed.

Lemma insert_reverse_filter {A : Type} (key : A -> nat) (n : nat) (x : A)
  (l : list A) :
  filter (fun a => key a =? n) (Usage.insert_reverse key x l)
  = filter (fun a => key a =? n) (x :: l).
Proof.
  induction l as [|y l IH]; [reflexivity|]. cbn [Usage.insert_reverse].
  destruct (Nat.leb_spec (key y) (key x)) as [Hle|Hlt]; [reflexivity|].
  cbn [filter] in *. rewrite IH.
  destruct (Nat.eqb_spec (key x) n), (Nat.eqb_spec (key y) n);
    try reflexivity. lia.
Qed.

(** The sort is stable: the items with a given key keep their order. *)
Lemma sorted_reverse_stable {A : Type} (key : A -> nat) (n : nat)
  (l : list A) :
  filter (fun a => key a =? n) (Usage.sorted_reverse key l)
  = filter (fun a => key a =? n) l.
Proof.
  induction l as [|x l IH]; [reflexivity|].
  cbn [Usage.sorted_reverse fold_right].
  fold (Usage.sorted_reverse key l).
  rewrite insert_reverse_filter. cbn [filter]. now rewrite IH.
Qed.

Lemma filter_map_comm {A B : Type} (f : A -> B) (p : B -> bool)
  (l : list A) :
  filter p (map f l) = map f (filter (fun a => p (f a)) l).
Proof.
  induction l as [|a l IH]; [reflexivity|]. cbn [map filter].
  rewrite IH. now destruct (p (f a)).
Qed.

Lemma lookup_key {V : Type} (d : Usage.odict V) (k : str) :
  In k (map fst d) -> exists v, Usage.lookup k d = Some v /\ In (k, v) d.
Proof.
  induction d as [|[k' v'] d IH]; intros H; [destruct H|].
  cbn [Usage.lookup]. destruct (str_eqb_spec k k') as [->|Hne].
  - exists v'. split; [reflexivity|now left].
  - destruct H as [H|H]; [cbn in H; congruence|].
    destruct (IH H) as (v & Hv & Hin). exists v. split; [assumption|].
    now right.
Qed.

Lemma usage_count_pos (t : str) (l : list str) :
  In t l -> 0 < usage_count t l.
Proof.
  unfold usage_count. induction l as [|x l IH]; intros H; [destruct H|].
  cbn [filter]. destruct (str_eqb_spec t x) as [->|Hne]; cbn [length];
    [lia|].
  apply IH. destruct H as [H|H]; [congruence|assumption].
Qed.

Lemma map_fst_filter {V : Type} (p : str * V -> bool) (q : str -> bool)
  (d : list (str * V)) :
  (forall kv, In kv d -> p kv = q (fst kv)) ->
  map fst (filter p d) = filter q (map fst d).
Proof.
  induction d as [|kv d IH]; intros H; [reflexivity|].
  cbn [filter map]. rewrite (H kv) by now left.
  destruct (q (fst kv)); cbn [map];
    now rewrite IH by (intros x Hx; apply H; now right).
Qed.

(** Every entry of the aggregate built from a sequence of cells holds
    the fields of its table. *)
Lemma cells_entry (evs : list (str * (str * str))) (t : str)
  (e : Usage.table_entry) :
  In (t, e) (fold_left cell_step evs []) ->
  In t (map fst evs)
  /\ Usage.query_appearances e = usage_count t (map fst evs)
  /\ Usage.unique_clubs e = firsts (cell_clubs t evs)
  /\ Usage.environment e = last (cell_environments t evs) (py "unknown").
Proof.
  intros Hin.
  assert (Hnd : NoDup (map fst (fold_left cell_step evs [])))
    by (rewrite keys_cells; apply NoDup_firsts).
  pose proof (In_lookup _ _ _ Hnd Hin) as Hlook.
  pose proof (table_entry_fields evs t) as H. cbv zeta in H.
  unfold table_entry_at in H. rewrite Hlook in H.
  split; [|exact H].
  apply In_firsts. rewrite <- keys_cells.
  apply (in_map fst) in Hin. exact Hin.
Qed.

Section TableSummary.

Variable float : Type.
Variable float_of_str : str -> option float.
Variable float_zero : float.

(** X6: every line of the table summary is the line of a table named by
    some cell; its appearance count is the number of cells, over all
    rows, that name the table, and its club count is the number of
    distinct club names on these cells: the empty club name, of rows
    without a club, counts as one. *)
Theorem table_summary_counts (rows : list Usage.row)
  (line : Usage.table_line) :
  In line (Usage.create_table_analysis float float_of_str float_zero rows) ->
  let t := Usage.table_name line in
  In t (cell_tables rows)
  /\ Usage.total_query_appearances line = usage_count t (cell_tables rows)
  /\ 0 < Usage.total_query_appearances line
  /\ Usage.unique_clubs_using line
     = length (firsts (cell_clubs t (cell_events rows))).
Proof.
  intros Hline. cbv zeta. unfold Usage.create_table_analysis in Hline.
  apply in_map_iff in Hline. destruct Hline as ([t e] & <- & Hin).
  apply (Permutation_in _ (sorted_reverse_perm _ _)) in Hin.
  rewrite table_data_cells in Hin.
  destruct (cells_entry _ _ _ Hin) as (Ht & Ha & Hc & _).
  cbn [Usage.table_summary_line Usage.table_name
       Usage.total_query_appearances Usage.unique_clubs_using fst snd].
  unfold cell_tables. rewrite Ha, Hc.
  repeat split; try assumption. now apply usage_count_pos.
Qed.

(** X7: the environment of a line of the table summary is the
    environment of the last cell naming the table in a row whose
    environment is legacy or gridiron, and "unknown" when there is none:
    "mixed" and "N/A" rows never classify a table. *)
Theorem table_environment_last_write_wins (rows : list Usage.row)
  (line : Usage.table_line) :
  In line (Usage.create_table_analysis float float_of_str float_zero rows) ->
  let envs :=
    cell_environments (Usage.table_name line) (cell_events rows) in
  Usage.table_data_environment line = last envs (py "unknown")
  /\ (envs = [] -> Usage.table_data_environment line = py "unknown")
  /\ (Usage.table_data_environment line = py "legacy"
      \/ Usage.table_data_environment line = py "gridiron"
      \/ Usage.table_data_environment line = py "unknown").
Proof.
  intros Hline. cbv zeta. unfold Usage.create_table_analysis in Hline.
  apply in_map_iff in Hline. destruct Hline as ([t e] & <- & Hin).
  apply (Permutation_in _ (sorted_reverse_perm _ _)) in Hin.
  rewrite table_data_cells in Hin.
  destruct (cells_entry _ _ _ Hin) as (_ & _ & _ & He).
  cbn [Usage.table_summary_line Usage.table_name
       Usage.table_data_environment fst snd].
  rewrite He. split; [reflexivity|]. split; [intros ->; reflexivity|].
  destruct (cell_environments t (cell_events rows)) as [|x l] eqn:E
    using rev_ind; [right; right; reflexivity|].
  rewrite last_last.
  assert (Hx : In x (cell_environments t (cell_events rows)))
    by (rewrite E; apply in_or_app; right; now left).
  unfold cell_environments in Hx. apply filter_In in Hx.
  destruct Hx as [_ Hx]. apply orb_true_iff in Hx.
  destruct Hx as [Hx|Hx]; apply str_eqb_eq in Hx; auto.
Qed.

(** X8: the table summary has one line for each table named by a cell;
    the lines come by appearance count, largest first, and the tables
    with the same count come in the order in which they were first
    met. *)
Theorem table_summary_order (rows : list Usage.row) :
  let lines :=
    Usage.create_table_analysis float float_of_str float_zero rows in
  let tables := firsts (cell_tables rows) in
  descending (map Usage.total_query_appearances lines)
  /\ Permutation (map Usage.table_name lines) tables
  /\ NoDup (map Usage.table_name lines)
  /\ forall n,
       map Usage.table_name
         (filter (fun l => Usage.total_query_appearances l =? n) lines)
       = filter (fun t => usage_count t (cell_tables rows) =? n) tables.
Proof.
  cbv zeta. unfold Usage.create_table_analysis, cell_tables.
  rewrite table_data_cells.
  set (td := fold_left cell_step (cell_events rows) []).
  set (key := fun x : str * Usage.table_entry =>
                Usage.query_appearances (snd x)).
  assert (Hnames : forall l : list (str * Usage.table_entry),
             map Usage.table_name (map Usage.table_summary_line l)
             = map fst l)
    by (intros l; rewrite map_map; reflexivity).
  assert (Hperm : Permutation (map fst (Usage.sorted_reverse key td))
                    (firsts (map fst (cell_events rows)))).
  { rewrite <- keys_cells. apply Permutation_map.
    apply sorted_reverse_perm. }
  split; [|split; [|split]].
  - rewrite map_map.
    change (map (fun x => Usage.total_query_appearances
                            (Usage.table_summary_line x))
              (Usage.sorted_reverse key td))
      with (map key (Usage.sorted_reverse key td)).
    apply sorted_reverse_descending.
  - rewrite Hnames. exact Hperm.
  - rewrite Hnames.
    apply (Permutation_NoDup (Permutation_sym Hperm)), NoDup_firsts.
  - intros n. rewrite filter_map_comm, Hnames.
    change (filter (fun a => Usage.total_query_appearances
                               (Usage.table_summary_line a) =? n)
              (Usage.sorted_reverse key td))
      with (filter (fun a => key a =? n) (Usage.sorted_reverse key td)).
    rewrite sorted_reverse_stable, <- keys_cells.
    apply map_fst_filter. intros [t e] Hin.
    destruct (cells_entry _ _ _ Hin) as (_ & Ha & _).
    unfold key. cbn [fst snd]. now rewrite Ha.
Qed.

End TableSummary.

(** Two tables with three cells each and one with a single cell; a row
    without a club and a row whose environment is mixed. *)
Lemma table_summary_counts_witness :
  let rows := tie_rows ++
    [ {| Usage.club := py ""; Usage.data_environment := py "mixed";
         Usage.score := py "N/A";
         Usage.table_columns := [py "tickets"; py " fans "; py "sales"] |} ]
  in
  map (fun l => (Usage.table_name l, Usage.total_query_appearances l,
                 Usage.unique_clubs_using l))
    (Usage.create_table_analysis Z (fun _ => None) 0%Z rows)
  = [(py "sales", 3, 2); (py "tickets", 3, 2); (py "fans", 1, 1)]
  /\ usage_count (py "fans") (cell_tables rows) = 1.
Proof.
  cbv zeta. split; [reflexivity|].
  match goal with
  | |- usage_count _ (cell_tables ?rows) = _ =>
      destruct (table_summary_counts Z (fun _ => None) 0%Z rows
                  {| Usage.table_name := py "fans";
                     Usage.table_data_environment := py "unknown";
                     Usage.unique_clubs_using := 1;
                     Usage.total_query_appearances := 1 |})
        as (_ & H & _)
  end.
  - vm_compute. right. right. left. reflexivity.
  - cbn [Usage.table_name Usage.total_query_appearances] in H.
    symmetry. exact H.
Defined.

Lemma table_environment_last_write_wins_witness :
  let rows := tie_rows ++
    [ {| Usage.club := py "XYZ"; Usage.data_environment := py "legacy";
         Usage.score := py "1";
         Usage.table_columns := [py "sales"] |};
      {| Usage.club := py "XYZ"; Usage.data_environment := py "mixed";
         Usage.score := py "1";
         Usage.table_columns := [py "sales"] |} ]
  in
  last (cell_environments (py "sales") (cell_events rows)) (py "unknown")
  = py "legacy".
Proof.
  cbv zeta.
  match goal with
  | |- last (cell_environments _ (cell_events ?rows)) _ = _ =>
      destruct (table_environment_last_write_wins Z (fun _ => None) 0%Z
                  rows
                  {| Usage.table_name := py "sales";
                     Usage.table_data_environment := py "legacy";
                     Usage.unique_clubs_using := 2;
                     Usage.total_query_appearances := 4 |})
        as (H & _)
  end.
  - vm_compute. left. reflexivity.
  - cbn [Usage.table_name Usage.table_data_environment] in H.
    symmetry. exact H.
Defined.

(** ** Stage 3: the club aggregate, row by row *)

Lemma Forall_update {V : Type} (P : V -> Prop) (dflt : V) (k : str)
  (f : V -> V) (d : Usage.odict V) :
  P (f dflt) -> (forall v, P v -> P (f v)) ->
  Forall (fun kv => P (snd kv)) d ->
  Forall (fun kv => P (snd kv)) (Usage.update dflt k f d).
Proof.
  intros Hd Hf. induction 1 as [|[k' v] d Hv Hrest IH];
    cbn [Usage.update].
  - constructor; [exact Hd|constructor].
  - cbn [snd] in Hv.
    destruct (str_eqb k k'); constructor; cbn [snd]; auto.
Qed.

Lemma set_add_keys (t : str) (c : Usage.counter) :
  Usage.set_add t (map fst c) = map fst (Usage.incr t c).
Proof. unfold Usage.incr. now rewrite keys_update. Qed.


Section ClubRollup.

Variable float : Type.
Variable float_of_str : str -> option float.
Variable float_zero : float.

Lemma sets_follow_column_step (club_in data_env : str)
  (st : Usage.state float) (cell : str) :
  Forall (fun kv => sets_follow_counters float (snd kv)) (fst st) ->
  Forall (fun kv => sets_follow_counters float (snd kv))
    (fst (Usage.column_step float club_in data_env st cell)).
Proof.
  intros H. unfold Usage.column_step. cbv zeta.
  destruct (Usage.nonempty (strip cell)); [|assumption]. cbn [fst].
  destruct (Usage.nonempty club_in && _); [|assumption].
  destruct (str_eqb data_env (py "legacy"));
    (apply Forall_update; [| |assumption]);
    try (split; reflexivity);
    intros v [Hl Hg]; split; cbn; rewrite ?Hl, ?Hg;
    try reflexivity; apply set_add_keys.
Qed.

Lemma sets_follow_rows (rows : list Usage.row) :
  forall st : Usage.state float,
    Forall (fun kv => sets_follow_counters float (snd kv)) (fst st) ->
    Forall (fun kv => sets_follow_counters float (snd kv))
      (fst (fold_left (Usage.row_step float float_of_str float_zero)
              rows st)).
Proof.
  induction rows as [|r rows IH]; intros st H; [assumption|].
  cbn [fold_left]. apply IH. unfold Usage.row_step. cbv zeta.
  match goal with
  | |- Forall _ (fst (fold_left _ _ ?st0)) =>
      assert (H0 : Forall (fun kv => sets_follow_counters float (snd kv))
                     (fst st0));
      [cbn [fst]; destruct (Usage.nonempty (strip (Usage.club r)));
       [apply Forall_update; [split; reflexivity| |assumption];
        intros v Hv; exact Hv
       |assumption]
      |generalize dependent st0]
  end.
  induction (Usage.table_columns r) as [|x cols IHc]; intros st0 H0;
    [assumption|].
  cbn [fold_left]. apply IHc. now apply sets_follow_column_step.
Qed.

(** *** The clubs of the aggregate *)

Lemma keys_column_step (club_in data_env : str) (st : Usage.state float)
  (cell : str) :
  (Usage.nonempty club_in = true -> mem club_in (map fst (fst st)) = true) ->
  map fst (fst (Usage.column_step float club_in data_env st cell))
  = map fst (fst st).
Proof.
  intros H. unfold Usage.column_step. cbv zeta.
  destruct (Usage.nonempty (strip cell)); [|reflexivity]. cbn [fst].
  destruct (Usage.nonempty club_in) eqn:E; [|reflexivity].
  cbn [andb].
  destruct (str_eqb data_env (py "legacy") || _); [|reflexivity].
  destruct (str_eqb data_env (py "legacy"));
    now rewrite keys_update, H.
Qed.

Lemma keys_columns (club_in data_env : str) (cols : list str) :
  forall st : Usage.state float,
    (Usage.nonempty club_in = true ->
     mem club_in (map fst (fst st)) = true) ->
    map fst (fst (fold_left (Usage.column_step float club_in data_env)
                    cols st))
    = map fst (fst st).
Proof.
  induction cols as [|x cols IH]; intros st H; [reflexivity|].
  cbn [fold_left]. rewrite IH; rewrite keys_column_step by assumption;
    [reflexivity|assumption].
Qed.

Lemma keys_row_step (st : Usage.state float) (r : Usage.row) :
  map fst (fst (Usage.row_step float float_of_str float_zero st r))
  = if Usage.nonempty (strip (Usage.club r))
    then Usage.set_add (strip (Usage.club r)) (map fst (fst st))
    else map fst (fst st).
Proof.
  unfold Usage.row_step. cbv zeta. rewrite keys_columns; cbn [fst].
  - destruct (Usage.nonempty (strip (Usage.club r))); [|reflexivity].
    now rewrite keys_update.
  - intros E. rewrite E, keys_update. apply mem_In.
    destruct (mem (strip (Usage.club r)) (map fst (fst st))) eqn:Em.
    + now apply mem_In.
    + apply in_or_app. right. now left.
Qed.

Lemma keys_rows (rows : list Usage.row) :
  forall st : Usage.state float,
    map fst (fst (fold_left (Usage.row_step float float_of_str float_zero)
                    rows st))
    = fold_left (fun s t => Usage.set_add t s) (row_clubs rows)
        (map fst (fst st)).
Proof.
  induction rows as [|r rows IH]; intros st; [reflexivity|].
  cbn [fold_left]. rewrite IH, keys_row_step. unfold row_clubs.
  cbn [map filter].
  now destruct (Usage.nonempty (strip (Usage.club r))).
Qed.

Lemma keys_analyze_usage (rows : list Usage.row) :
  map fst (fst (Usage.analyze_usage float float_of_str float_zero rows))
  = firsts (row_clubs rows).
Proof. unfold Usage.analyze_usage. now rewrite keys_rows. Qed.

(** *** The scores of a club *)





End ClubRollup.

(** ** Stage 3: the club summary *)

Lemma keys_counter_of (evs : list str) :
  map fst (counter_of evs) = firsts evs.
Proof.
  rewrite counter_of_firsts, map_map. cbn [fst]. apply map_id.
Qed.

Lemma In_row_clubs (rows : list Usage.row) (c : str) :
  In c (firsts (row_clubs rows))
  <-> c <> [] /\ exists r, In r rows /\ strip (Usage.club r) = c.
Proof.
  rewrite In_firsts. unfold row_clubs.
  rewrite filter_In, in_map_iff. split.
  - intros [(r & <- & Hr) Hne]. split; [|now exists r].
    intros E. rewrite E in Hne. discriminate.
  - intros [Hne (r & Hr & <-)]. split; [now exists r|].
    destruct (strip (Usage.club r)); [congruence|reflexivity].
Qed.

Section ClubSummary.

Variable float : Type.
Variable float_of_str : str -> option float.
Variable float_zero : float.
Variable float_sum : list float -> float.
Variable float_div : float -> nat -> float.
Variable float_fmt2 : float -> str.

(** X9: the club summary has one line for each club named by a row, in
    the order in which the clubs are first met; a club is the stripped
    text of the club column, and rows whose club is empty get no line. *)
Theorem club_summary_order (rows : list Usage.row) :
  let lines :=
    Usage.create_club_analysis float float_of_str float_zero float_sum
      float_div float_fmt2 rows in
  map Usage.line_club lines = firsts (row_clubs rows)
  /\ NoDup (map Usage.line_club lines)
  /\ Forall (fun c => c <> []) (map Usage.line_club lines)
  /\ (forall c, In c (map Usage.line_club lines)
                <-> c <> [] /\ exists r, In r rows /\ strip (Usage.club r) = c).
Proof.
  cbv zeta. unfold Usage.create_club_analysis. rewrite map_map.
  change (map (fun x => Usage.line_club
                          (Usage.club_summary_line float float_zero
                             float_sum float_div float_fmt2 x))
            (fst (Usage.analyze_usage float float_of_str float_zero rows)))
    with (map fst
            (fst (Usage.analyze_usage float float_of_str float_zero rows))).
  rewrite keys_analyze_usage.
  pose proof (In_row_clubs rows) as Hin.
  split; [reflexivity|]. split; [apply NoDup_firsts|].
  split; [|exact Hin].
  apply Forall_forall. intros c Hc.
  destruct (proj1 (Hin c) Hc) as [Hne _]. exact Hne.
Qed.


(** X11: the two table counts of a club line are the numbers of
    distinct tables among the club's increments for legacy and for
    gridiron: a table used in several rows, or several times in a row,
    counts once. *)
Theorem club_summary_unique_tables (rows : list Usage.row)
  (line : Usage.club_line) :
  In line (Usage.create_club_analysis float float_of_str float_zero
             float_sum float_div float_fmt2 rows) ->
  Usage.unique_legacy_tables line
  = length (firsts (increments rows (Usage.line_club line) (py "legacy")))
  /\ Usage.unique_gridiron_tables line
     = length (firsts (increments rows (Usage.line_club line)
                         (py "gridiron"))).
Proof.
  intros Hline. unfold Usage.create_club_analysis in Hline.
  apply in_map_iff in Hline. destruct Hline as ([c e] & <- & Hin).
  cbn [Usage.club_summary_line Usage.line_club
       Usage.unique_legacy_tables Usage.unique_gridiron_tables fst snd].
  pose proof (In_lookup _ _ _
                (NoDup_analyze_usage float float_of_str float_zero rows)
                Hin) as Hlook.
  pose proof (sets_follow_rows float float_of_str float_zero rows
                ([], []) (Forall_nil _)) as Hinv.
  fold (Usage.analyze_usage float float_of_str float_zero rows) in Hinv.
  rewrite Forall_forall in Hinv. destruct (Hinv _ Hin) as [Hl Hg].
  cbn [snd] in Hl, Hg.
  pose proof (counts_at_analyze_usage float float_of_str float_zero
                (py "legacy") rows c (or_introl eq_refl)) as Hcl.
  pose proof (counts_at_analyze_usage float float_of_str float_zero
                (py "gridiron") rows c (or_intror eq_refl)) as Hcg.
  unfold counts_at in Hcl, Hcg. rewrite Hlook in Hcl, Hcg.
  unfold table_counts in Hcl, Hcg.
  change (str_eqb (py "legacy") (py "legacy")) with true in Hcl.
  change (str_eqb (py "gridiron") (py "legacy")) with false in Hcg.
  cbv iota in Hcl, Hcg.
  rewrite Hl, Hg, Hcl, Hcg, !keys_counter_of. split; reflexivity.
Qed.

End ClubSummary.


Lemma club_summary_unique_tables_witness :
  option_map Usage.unique_gridiron_tables
    (hd_error (club_analysis_Z tie_rows)) = Some 2
  /\ length (increments tie_rows (py "ABC") (py "gridiron")) = 4.
Proof.
  split; [|reflexivity].
  destruct (club_analysis_Z tie_rows) as [|line rest] eqn:E;
    [discriminate E|].
  assert (Hin : In line (club_analysis_Z tie_rows))
    by (rewrite E; now left).
  assert (Hclub : Usage.line_club line = py "ABC")
    by (vm_compute in E; injection E as <- _; reflexivity).
  destruct (club_summary_unique_tables Z (fun _ => None) 0%Z
              (fun l => fold_right Z.add 0%Z l)
              (fun x n => Z.div x (Z.of_nat n))
              (fun x => str_of_nat (Z.to_nat x))
              tie_rows line Hin) as (_ & H).
  cbn [hd_error option_map]. rewrite H, Hclub. reflexivity.
Defined.
